(** * Off-topic channel names: the converter, the daily updater and the
      [otname] commands of [bot/cogs/off_topic_names.py].

    A Python [str] is a sequence of Unicode code points and [len] counts
    code points, so a string is a [list N] here.  The dictionary built by
    [str.maketrans] is a [gmap N N]. *)

From Stdlib Require Import ZArith NArith QArith List String Ascii Lia.
From Stdlib Require Import DecimalString.
From stdpp Require Import gmap gmultiset list sorting.

Local Open Scope N_scope.

(** The order relation of a boolean comparison, for [merge_sort]. *)
Definition leb_rel {A} (leb : A -> A -> bool) : relation A :=
  fun x y => Is_true (leb x y).

#[global] Instance leb_rel_dec {A} (leb : A -> A -> bool) :
  RelDecision (leb_rel leb).
Proof. intros x y. unfold leb_rel. apply _. Defined.

(** ** Python strings *)

Module PyStr.

Abbreviation codepoint := N.
Abbreviation str := (list N).

(** A string literal of the source whose characters are all ASCII. *)
Fixpoint lit (s : string) : str :=
  match s with
  | EmptyString => []
  | String a r => N_of_ascii a :: lit r
  end.

(** [len(s)] *)
Definition len (s : str) : N := N.of_nat (length s).

(** [c in s] for a one-character [c]. *)
Definition contains_char (c : codepoint) (s : str) : bool :=
  existsb (N.eqb c) s.

(** [sep.join(parts)] *)
Fixpoint join (sep : str) (parts : list str) : str :=
  match parts with
  | [] => []
  | [p] => p
  | p :: rest => p ++ sep ++ join sep rest
  end.

(** [str.maketrans(x, y)]: a dictionary sending [ord(x[i])] to
    [ord(y[i])]; it is filled from left to right, so a later pair wins
    over an earlier one with the same key.  (Python raises [ValueError]
    when the two strings differ in length; see [table_arguments_length].) *)
Definition maketrans (x y : str) : gmap N N :=
  foldl (fun m p => <[p.1 := p.2]> m) ∅ (zip x y).

(** One character of [s.translate(table)]: the entry of the table when
    there is one, the character itself otherwise. *)
Definition translate_char (table : gmap N N) (c : codepoint) : codepoint :=
  match table !! c with
  | Some d => d
  | None => c
  end.

(** [s.translate(table)] *)
Definition translate (table : gmap N N) (s : str) : str :=
  map (translate_char table) s.

(** [x < y] and [x <= y] on strings: lexicographic on code points. *)
Fixpoint str_ltb (x y : str) : bool :=
  match x, y with
  | _, [] => false
  | [], _ :: _ => true
  | c :: x', d :: y' => (c <? d) || ((c =? d) && str_ltb x' y')
  end.

Definition str_leb (x y : str) : bool := negb (str_ltb y x).

(** [sorted(l)] for a list of strings. *)
Definition sorted (l : list str) : list str :=
  merge_sort (leb_rel str_leb) l.

(** [x.startswith(prefix)] and [needle in haystack]. *)
Fixpoint startswith (x pre : str) : bool :=
  match pre, x with
  | [], _ => true
  | p :: pre', c :: x' => N.eqb p c && startswith x' pre'
  | _ :: _, [] => false
  end.

Fixpoint contains (haystack needle : str) : bool :=
  startswith haystack needle ||
  match haystack with
  | [] => false
  | _ :: rest => contains rest needle
  end.

End PyStr.

Import PyStr.

(** ** OffTopicName.convert *)

(** The two ways the converter raises [BadArgument]. *)
Inductive BadArgument : Type :=
  | InvalidLength      (* "Channel name must be between 2 and 96 chars long" *)
  | InvalidCharacters. (* "Channel name must only consist of ..." *)

Inductive result (E A : Type) : Type :=
  | Ok (a : A)
  | Raise (e : E).
Arguments Ok {E A} a.
Arguments Raise {E A} e.

Definition allowed_characters : str := lit "ABCDEFGHIJKLMNOPQRSTUVWXYZ!?'`-".

(** The second argument of [str.maketrans] in the source: the sans-serif
    capitals U+1D5A0 to U+1D5B9, then U+01C3, U+FF1F, U+2019, U+2019 and
    an ASCII hyphen-minus. *)
Definition replacement_characters : str :=
  [ 0x1D5A0; 0x1D5A1; 0x1D5A2; 0x1D5A3; 0x1D5A4; 0x1D5A5; 0x1D5A6;
    0x1D5A7; 0x1D5A8; 0x1D5A9; 0x1D5AA; 0x1D5AB; 0x1D5AC; 0x1D5AD;
    0x1D5AE; 0x1D5AF; 0x1D5B0; 0x1D5B1; 0x1D5B2; 0x1D5B3; 0x1D5B4;
    0x1D5B5; 0x1D5B6; 0x1D5B7; 0x1D5B8; 0x1D5B9;
    0x01C3; 0xFF1F; 0x2019; 0x2019; 0x2D ].

Definition table : gmap N N :=
  maketrans allowed_characters replacement_characters.

(** [str.isalnum] on code points below 128; above that Python consults
    the Unicode character database, which the converter takes as given
    (the [isalnum] parameter below). *)
Definition ascii_isalnum (c : codepoint) : bool :=
  ((48 <=? c) && (c <=? 57)) || ((65 <=? c) && (c <=? 90))
  || ((97 <=? c) && (c <=? 122)).

(** [str.isalnum] on ASCII and on the characters that the table puts
    in: the sans-serif capitals U+1D5A0 to U+1D5B9 (letters, category
    Lu) and U+01C3 (a letter, category Lo) are alphanumeric, U+FF1F and
    U+2019 (punctuation) are not. *)
Definition table_isalnum (c : codepoint) : bool :=
  ascii_isalnum c || ((0x1D5A0 <=? c) && (c <=? 0x1D5B9)) || (c =? 0x01C3).

Section Converter.

(** Python's [str.isalnum] for one character. *)
Variable isalnum : codepoint -> bool.

Definition char_ok (c : codepoint) : bool :=
  isalnum c || contains_char c allowed_characters.

Definition convert (argument : str) : result BadArgument str :=
  if negb ((2 <=? len argument) && (len argument <=? 96)) then
    Raise InvalidLength
  else if negb (forallb char_ok argument) then
    Raise InvalidCharacters
  else
    Ok (translate table argument).

End Converter.

(** ** datetime and timedelta, as far as the updater uses them *)

Module DateTime.
Local Open Scope Z_scope.

(** A naive [datetime]: the proleptic ordinal of its date and its time
    of day. *)
Record datetime : Type := {
  ordinal : Z;
  hour : Z;
  minute : Z;
  second : Z;
  microsecond : Z
}.

(** A [timedelta] holds normalised fields: [0 <= seconds < 86400] and
    [0 <= microseconds < 1000000]; only [days] may be negative. *)
Record timedelta : Type := {
  days : Z;
  seconds : Z;
  microseconds : Z
}.

Definition valid (d : datetime) : Prop :=
  0 <= hour d < 24 /\ 0 <= minute d < 60 /\ 0 <= second d < 60
  /\ 0 <= microsecond d < 1000000.

(** [timedelta(days=d, seconds=s, microseconds=us)]: the constructor
    carries with floor division. *)
Definition mk_timedelta (d s us : Z) : timedelta :=
  let s' := s + us / 1000000 in
  {| days := d + s' / 86400;
     seconds := s' mod 86400;
     microseconds := us mod 1000000 |}.

Definition seconds_of_day (d : datetime) : Z :=
  second d + minute d * 60 + hour d * 3600.

(** [d.replace(microsecond=0, second=0, minute=0, hour=0)] *)
Definition replace_time (d : datetime) (h m s us : Z) : datetime :=
  {| ordinal := ordinal d; hour := h; minute := m; second := s;
     microsecond := us |}.

(** [d + t] *)
Definition add (d : datetime) (t : timedelta) : datetime :=
  let delta := mk_timedelta (ordinal d + days t)
                            (seconds_of_day d + seconds t)
                            (microsecond d + microseconds t) in
  {| ordinal := days delta;
     hour := seconds delta / 3600;
     minute := (seconds delta mod 3600) / 60;
     second := (seconds delta mod 3600) mod 60;
     microsecond := microseconds delta |}.

(** [d1 - d2] *)
Definition sub (d1 d2 : datetime) : timedelta :=
  mk_timedelta (ordinal d1 - ordinal d2)
               (seconds_of_day d1 - seconds_of_day d2)
               (microsecond d1 - microsecond d2).

End DateTime.

(** ** Effects: what a coroutine of the cog does to the outside world *)

(** The exceptions that the code of the cog raises or handles itself.
    A run describes a coroutine whose awaited calls return, or raise
    one of these; the cancellation of a task at an [await] and the
    errors that the chat library or the transport may raise are not
    part of a run. *)
Inductive exn : Type :=
  | ExBadArgument (b : BadArgument)
  | ExResponseCodeError (status : Z)
  | ExValueError       (* unpacking a sequence of the wrong length *)
  | ExAttributeError.  (* an attribute of [None] *)

Inductive event : Type :=
  | EvSleep (seconds : Z)
  | EvGet (url : str) (random_items : option Z)
  | EvPost (url : str) (name : str)
  | EvDelete (url : str)
  | EvChannelEdit (channel : Z) (name : str)
  | EvSend (content : str)
  | EvSendEmbed (title description : str)
  | EvPaginate (lines : list str) (title : str) (max_size : Z) (empty : bool)
  | EvLogError (status : Z)
  | EvLogDebug (name_0 name_1 name_2 : str)
  | EvLogInfo (message : str).

(** A run of a coroutine: the calls it made, in order, and how it ended. *)
Definition M (A : Type) : Type := (list event * result exn A)%type.

Definition ret {A} (a : A) : M A := ([], Ok a).

Definition bind {A B} (m : M A) (k : A -> M B) : M B :=
  match m with
  | (tr, Ok a) => let '(tr', r) := k a in (tr ++ tr', r)
  | (tr, Raise e) => (tr, Raise e)
  end.

Definition emit (e : event) : M unit := ([e], Ok tt).
Definition raise {A} (e : exn) : M A := ([], Raise e).

Declare Scope run_scope.
Delimit Scope run_scope with run.
Notation "x <~ m ;; k" := (bind m (fun x => k))
  (at level 90, m at level 89, right associativity) : run_scope.
Notation "m >>> k" := (bind m (fun _ => k))
  (at level 90, right associativity) : run_scope.
Local Open Scope run_scope.

(** [try: body / except ResponseCodeError as e: handler]; every other
    exception passes through. *)
Definition try_except_ResponseCodeError {A} (body : M A) (handler : Z -> M A)
  : M A :=
  match body with
  | (tr, Raise (ExResponseCodeError status)) =>
      let '(tr', r) := handler status in (tr ++ tr', r)
  | other => other
  end.

(** The API client: the answer of the remote store is an input of the
    run; a non-2xx answer raises [ResponseCodeError]. *)
Definition api_get (url : str) (random_items : option Z)
    (answer : result Z (list str)) : M (list str) :=
  emit (EvGet url random_items) >>>
  match answer with
  | Ok names => ret names
  | Raise status => raise (ExResponseCodeError status)
  end.

Definition api_post (url name : str) (answer : result Z unit) : M unit :=
  emit (EvPost url name) >>>
  match answer with
  | Ok _ => ret tt
  | Raise status => raise (ExResponseCodeError status)
  end.

Definition api_delete (url : str) (answer : result Z unit) : M unit :=
  emit (EvDelete url) >>>
  match answer with
  | Ok _ => ret tt
  | Raise status => raise (ExResponseCodeError status)
  end.

(** [a, b, c = names] *)
Definition unpack3 (names : list str) : M (str * str * str) :=
  match names with
  | [a; b; c] => ret (a, b, c)
  | _ => raise ExValueError
  end.

(** [channel.edit(name=...)] on what [bot.get_channel] returned. *)
Definition channel_edit (channel : option Z) (name : str) : M unit :=
  match channel with
  | Some ch => emit (EvChannelEdit ch name)
  | None => raise ExAttributeError
  end.

(** ** update_names *)

(** What one turn of the loop reads from outside: the two readings of
    [datetime.utcnow()], the answer of the store and the channel cache. *)
Record cycle : Type := {
  utcnow_1 : DateTime.datetime;
  utcnow_2 : DateTime.datetime;
  names_answer : result Z (list str);
  get_channel : Z -> option Z
}.

Definition seconds_to_sleep (now_1 now_2 : DateTime.datetime) : Z :=
  let today_at_midnight := DateTime.replace_time now_1 0 0 0 0 in
  let next_midnight :=
    DateTime.add today_at_midnight (DateTime.mk_timedelta 1 0 0) in
  (DateTime.seconds (DateTime.sub next_midnight now_2) + 1)%Z.

Definition names_url : str := lit "bot/off-topic-channel-names".

Section Updater.

(** [CHANNELS], from [bot.constants.Channels]. *)
Variables off_topic_0 off_topic_1 off_topic_2 : Z.

(** The body of [while True]. *)
Definition update_step (c : cycle) : M unit :=
  emit (EvSleep (seconds_to_sleep (utcnow_1 c) (utcnow_2 c))) >>>
  fetched <~ try_except_ResponseCodeError
               (names <~ api_get names_url (Some 3%Z) (names_answer c) ;;
                triple <~ unpack3 names ;;
                ret (Some triple))
               (fun status =>
                  emit (EvLogError status) >>>
                  ret None (* continue *)) ;;
  match fetched with
  | None => ret tt
  | Some (channel_0_name, channel_1_name, channel_2_name) =>
      let channel_0 := get_channel c off_topic_0 in
      let channel_1 := get_channel c off_topic_1 in
      let channel_2 := get_channel c off_topic_2 in
      channel_edit channel_0 (lit "ot0-" ++ channel_0_name) >>>
      channel_edit channel_1 (lit "ot1-" ++ channel_1_name) >>>
      channel_edit channel_2 (lit "ot2-" ++ channel_2_name) >>>
      emit (EvLogDebug channel_0_name channel_1_name channel_2_name)
  end.

(** The loop, observed for as many turns as [world] describes.  It
    ends early only by an exception; [Ok tt] means it is still
    running after the last described turn. *)
Fixpoint update_names (world : list cycle) : M unit :=
  match world with
  | [] => ret tt
  | c :: rest => update_step c >>> update_names rest
  end.

End Updater.

(** ** The cog and its updater task *)

Inductive task_state : Type := Running | Cancelled.

(** [tasks] are the tasks made by [bot.loop.create_task], in order of
    creation; [updater_task] is the cog's attribute. *)
Record cog : Type := {
  tasks : list task_state;
  updater_task : option nat
}.

(** [OffTopicNames.__init__] *)
Definition init : cog := {| tasks := []; updater_task := None |}.

Definition cog_unload (s : cog) : cog :=
  match updater_task s with
  | Some t => {| tasks := <[t := Cancelled]> (tasks s);
                 updater_task := updater_task s |}
  | None => s
  end.

Definition on_ready (s : cog) : cog :=
  match updater_task s with
  | None => {| tasks := tasks s ++ [Running];
               updater_task := Some (length (tasks s)) |}
  | Some _ => s
  end.

Inductive cog_call : Type := CallOnReady | CallCogUnload.

Definition call (s : cog) (c : cog_call) : cog :=
  match c with
  | CallOnReady => on_ready s
  | CallCogUnload => cog_unload s
  end.

Definition calls (s : cog) (cs : list cog_call) : cog := foldl call s cs.

Definition is_running (t : task_state) : bool :=
  match t with Running => true | Cancelled => false end.

Definition running_tasks (s : cog) : nat :=
  length (List.filter is_running (tasks s)).

(** ** difflib.SequenceMatcher and difflib.get_close_matches

    The search command calls Python's [difflib.get_close_matches]; this
    is the part of the standard library module it runs, with
    [isjunk=None] and [autojunk=True] as [get_close_matches] constructs
    its matcher.  Indices are natural numbers; the similarity ratio,
    a binary64 float in Python, is the exact rational it rounds. *)

Module Difflib.

(** [Match(a, b, size)] *)
Definition Match : Type := (nat * nat * nat)%type.

Definition size_of (m : Match) : nat := m.2.

Section SequenceMatcher.

(** [self.a] and [self.b] *)
Variables a b : str.

(** [__chain_b], first loop: for each element of [b] the indices at
    which it occurs, in increasing order. *)
Definition chain_b_indices : gmap N (list nat) :=
  foldl (fun b2j p => <[p.2 := default [] (b2j !! p.2) ++ [p.1]]> b2j)
        ∅ (imap pair b).

(** [__chain_b], the rest: without [isjunk] nothing is junk; when [b]
    has at least 200 elements, those occurring more than
    [n // 100 + 1] times are dropped as popular. *)
Definition b2j : gmap N (list nat) :=
  let n := length b in
  if (200 <=? n)%nat then
    filter (fun p : N * list nat => (length p.2 <= n / 100 + 1)%nat)
           chain_b_indices
  else chain_b_indices.

(** [find_longest_match], the loop [for j in b2j.get(a[i], nothing)]. *)
Fixpoint scan_row (blo bhi i : nat) (j2len : gmap nat nat) (js : list nat)
    (newj2len : gmap nat nat) (best : Match) : gmap nat nat * Match :=
  match js with
  | [] => (newj2len, best)
  | j :: rest =>
      if (j <? blo)%nat then
        scan_row blo bhi i j2len rest newj2len best        (* continue *)
      else if (bhi <=? j)%nat then
        (newj2len, best)                                   (* break *)
      else
        let k := S (match j with
                    | O => 0
                    | S j' => default 0%nat (j2len !! j')
                    end) in
        let best' := if (size_of best <? k)%nat
                     then ((i + 1 - k)%nat, (j + 1 - k)%nat, k)
                     else best in
        scan_row blo bhi i j2len rest (<[j := k]> newj2len) best'
  end.

(** One turn of [for i in range(alo, ahi)]. *)
Definition scan_rows_step (blo bhi : nat) (st : gmap nat nat * Match)
    (i : nat) : gmap nat nat * Match :=
  let js := match a !! i with
            | Some x => default [] (b2j !! x)
            | None => []
            end in
  scan_row blo bhi i st.1 js ∅ st.2.

Definition same_element (i j : nat) : bool :=
  match a !! i, b !! j with
  | Some x, Some y => N.eqb x y
  | _, _ => false
  end.

(** [while besti > alo and bestj > blo and a[besti-1] == b[bestj-1]] *)
Fixpoint extend_left (alo blo besti bestj bestsize : nat) : Match :=
  match besti, bestj with
  | S i', S j' =>
      if (alo <=? i')%nat && (blo <=? j')%nat && same_element i' j'
      then extend_left alo blo i' j' (S bestsize)
      else (besti, bestj, bestsize)
  | _, _ => (besti, bestj, bestsize)
  end.

(** [while besti+bestsize < ahi and bestj+bestsize < bhi and
    a[besti+bestsize] == b[bestj+bestsize]]; the loop runs at most
    [ahi - (besti + bestsize)] times, which is the [steps] given. *)
Fixpoint extend_right (steps ahi bhi besti bestj bestsize : nat) : Match :=
  match steps with
  | O => (besti, bestj, bestsize)
  | S steps' =>
      if (besti + bestsize <? ahi)%nat && (bestj + bestsize <? bhi)%nat
         && same_element (besti + bestsize) (bestj + bestsize)
      then extend_right steps' ahi bhi besti bestj (S bestsize)
      else (besti, bestj, bestsize)
  end.

(** [find_longest_match(alo, ahi, blo, bhi)].  The two last loops of
    the source extend over junk only, and [bjunk] is empty here. *)
Definition find_longest_match (alo ahi blo bhi : nat) : Match :=
  let '(_, (besti, bestj, bestsize)) :=
    foldl (scan_rows_step blo bhi) (∅, (alo, blo, 0%nat))
          (seq alo (ahi - alo)) in
  let '(besti, bestj, bestsize) :=
    extend_left alo blo besti bestj bestsize in
  extend_right (ahi - (besti + bestsize)) ahi bhi besti bestj bestsize.

Definition region : Type := (nat * nat * nat * nat)%type.

(** [get_matching_blocks], the loop [while queue]: the head of the list
    is the end of the Python list, where [pop] and [append] work.
    [fuel] bounds the number of turns. *)
Fixpoint matching_loop (fuel : nat) (queue : list region)
    (matching_blocks : list Match) : list Match :=
  match fuel, queue with
  | O, _ => matching_blocks
  | _, [] => matching_blocks
  | S fuel', (alo, ahi, blo, bhi) :: queue' =>
      let x := find_longest_match alo ahi blo bhi in
      let '(i, j, k) := x in
      match k with
      | O => matching_loop fuel' queue' matching_blocks
      | S _ =>
          let queue1 :=
            if (alo <? i)%nat && (blo <? j)%nat
            then (alo, i, blo, j) :: queue' else queue' in
          let queue2 :=
            if (i + k <? ahi)%nat && (j + k <? bhi)%nat
            then (i + k, ahi, j + k, bhi)%nat :: queue1 else queue1 in
          matching_loop fuel' queue2 (matching_blocks ++ [x])
      end
  end.

(** Order of triples, for [matching_blocks.sort()]. *)
Definition Match_leb (x y : Match) : bool :=
  let '(i1, j1, k1) := x in
  let '(i2, j2, k2) := y in
  ((i1 <? i2) || ((i1 =? i2) && ((j1 <? j2) || ((j1 =? j2) && (k1 <=? k2)))))%nat.

(** The second loop of [get_matching_blocks]: adjacent blocks are
    collapsed into one. *)
Fixpoint collapse (blocks : list Match) (i1 j1 k1 : nat) : list Match :=
  match blocks with
  | [] => match k1 with O => [] | S _ => [(i1, j1, k1)] end
  | (i2, j2, k2) :: rest =>
      if (i1 + k1 =? i2)%nat && (j1 + k1 =? j2)%nat then
        collapse rest i1 j1 (k1 + k2)
      else
        match k1 with
        | O => collapse rest i2 j2 k2
        | S _ => (i1, j1, k1) :: collapse rest i2 j2 k2
        end
  end.

(** [get_matching_blocks()]; the queue loop takes fewer than
    [2 * len(a) + 2] turns (see [get_matching_blocks_fuel]). *)
Definition get_matching_blocks : list Match :=
  let la := length a in
  let lb := length b in
  let matching_blocks :=
    matching_loop (2 * la + 1) [(0, la, 0, lb)%nat] [] in
  let sorted_blocks :=
    merge_sort (leb_rel Match_leb) matching_blocks in
  collapse sorted_blocks 0 0 0 ++ [(la, lb, 0%nat)].

(** [_calculate_ratio(matches, length)] *)
Definition calculate_ratio (matches length : nat) : Q :=
  match length with
  | O => 1%Q
  | S _ => Qmake (2 * Z.of_nat matches) (Pos.of_nat length)
  end.

(** [ratio()] *)
Definition ratio : Q :=
  let matches := sum_list (map size_of get_matching_blocks) in
  calculate_ratio matches (length a + length b).

(** [fullbcount]: how often each element occurs in [b]. *)
Definition fullbcount : gmap N Z :=
  foldl (fun m elt => <[elt := (default 0 (m !! elt) + 1)%Z]> m) ∅ b.

(** The loop of [quick_ratio()] over the elements of [a]. *)
Definition quick_step (st : gmap N Z * nat) (elt : N) : gmap N Z * nat :=
  let '(avail, matches) := st in
  let numb := match avail !! elt with
              | Some n => n
              | None => default 0%Z (fullbcount !! elt)
              end in
  (<[elt := (numb - 1)%Z]> avail,
   if (0 <? numb)%Z then S matches else matches).

(** [quick_ratio()] *)
Definition quick_ratio : Q :=
  let matches := (foldl quick_step (∅, 0%nat) a).2 in
  calculate_ratio matches (length a + length b).

(** [real_quick_ratio()] *)
Definition real_quick_ratio : Q :=
  let la := length a in
  let lb := length b in
  calculate_ratio (la `min` lb) (la + lb).

End SequenceMatcher.

(** Order of the [(score, name)] pairs that [_nlargest] ranks: tuples
    compare by their first differing component. *)
Definition scored_ltb (x y : Q * str) : bool :=
  match Qcompare x.1 y.1 with
  | Lt => true
  | Eq => str_ltb x.2 y.2
  | Gt => false
  end.

Definition scored_geb (x y : Q * str) : bool := negb (scored_ltb x y).

(** [heapq.nlargest(n, iterable)], by its documented meaning
    [sorted(iterable, reverse=True)[:n]]. *)
Definition nlargest (n : nat) (l : list (Q * str)) : list (Q * str) :=
  take n (merge_sort (leb_rel scored_geb) l).

(** The test of the loop of [get_close_matches] on one possibility [x]. *)
Definition good_enough (word x : str) (cutoff : Q) : bool :=
  Qle_bool cutoff (real_quick_ratio x word)
  && Qle_bool cutoff (quick_ratio x word)
  && Qle_bool cutoff (ratio x word).

(** [get_close_matches(word, possibilities, n, cutoff)], for [n > 0]
    and [0 <= cutoff <= 1] (otherwise Python raises [ValueError]). *)
Definition get_close_matches (word : str) (possibilities : list str)
    (n : nat) (cutoff : Q) : list str :=
  let result :=
    map (fun x => (ratio x word, x))
        (List.filter (fun x => good_enough word x cutoff) possibilities) in
  map snd (nlargest n result).

End Difflib.

(** ** The commands of the [otname] group *)

(** What the commands read of [ctx]. *)
Record Context : Type := {
  author_name : str;
  author_discriminator : str
}.

Definition lift_converter {A} (r : result BadArgument A) : M A :=
  match r with
  | Ok a => ret a
  | Raise e => raise (ExBadArgument e)
  end.

(** [f"• {name}"] *)
Definition bullet (name : str) : str := [0x2022; 32] ++ name.

Section Commands.

Variable isalnum : codepoint -> bool.

(** A parameter [*names: OffTopicName]: the command framework runs
    the converter on each word of the message in turn and calls the
    command with the converted values; the first [BadArgument] ends
    the invocation before the body runs. *)
Fixpoint convert_each (words : list str) : result BadArgument (list str) :=
  match words with
  | [] => Ok []
  | w :: rest =>
      match convert isalnum w with
      | Raise e => Raise e
      | Ok name =>
          match convert_each rest with
          | Raise e => Raise e
          | Ok names => Ok (name :: names)
          end
      end
  end.

Definition add_command (ctx : Context) (words : list str)
    (post_answer : result Z unit) : M unit :=
  names <~ lift_converter (convert_each words) ;;
  let name := join (lit "-") names in
  api_post names_url name post_answer >>>
  emit (EvLogInfo (author_name ctx ++ lit "#" ++ author_discriminator ctx
                   ++ lit " added the off-topic channel name '" ++ name)) >>>
  emit (EvSend (lit ":ok_hand: Added `" ++ name
                ++ lit "` to the names list.")).

Definition delete_command (ctx : Context) (words : list str)
    (delete_answer : result Z unit) : M unit :=
  names <~ lift_converter (convert_each words) ;;
  let name := join (lit "-") names in
  api_delete (names_url ++ lit "/" ++ name) delete_answer >>>
  emit (EvLogInfo (author_name ctx ++ lit "#" ++ author_discriminator ctx
                   ++ lit " deleted the off-topic channel name '" ++ name)) >>>
  emit (EvSend (lit ":ok_hand: Removed `" ++ name
                ++ lit "` from the names list.")).

(** The lines that [search_command] computes from the converted query
    and the names of the store. *)
Definition search_lines (query : str) (result : list str) : list str :=
  let in_matches : gset str :=
    list_to_set (List.filter (fun name => contains name query) result) in
  let close_matches :=
    Difflib.get_close_matches query result 10 (7 # 10) in
  sorted (map bullet
              (elements (in_matches ∪ list_to_set close_matches))).

(** A parameter [*, query: OffTopicName]: the rest of the message,
    converted. *)
Definition search_command (ctx : Context) (raw_query : str)
    (names_answer : result Z (list str)) : M unit :=
  query <~ lift_converter (convert isalnum raw_query) ;;
  result <~ api_get names_url None names_answer ;;
  let lines := search_lines query result in
  match lines with
  | _ :: _ =>
      emit (EvPaginate lines (lit "Query results") 400%Z false)
  | [] =>
      emit (EvSendEmbed (lit "Query results") (lit "Nothing found."))
  end.

End Commands.

(** ** Reference definitions, in the words of the specification

    These are not taken from the source: each writes out what a sentence
    of the specification describes, to be compared with the code. *)

Module Spec.

(** ASCII white space, which trimming removes at both ends. *)
Definition is_space (c : codepoint) : bool :=
  ((9 <=? c) && (c <=? 13)) || ((28 <=? c) && (c <=? 32)).

Fixpoint drop_spaces (s : str) : str :=
  match s with
  | c :: rest => if is_space c then drop_spaces rest else s
  | [] => []
  end.

(** The trimmed string. *)
Definition trimmed (s : str) : str :=
  rev (drop_spaces (rev (drop_spaces s))).

(** The substitution table written out: capitals go to the sans-serif
    capitals of the Mathematical Alphanumeric Symbols block, [!] to
    U+01C3, [?] to U+FF1F, the apostrophe and the backtick both to
    U+2019, and everything else stays. *)
Definition substitute (c : codepoint) : codepoint :=
  if (65 <=? c) && (c <=? 90) then c - 65 + 0x1D5A0
  else if c =? 33 then 0x01C3
  else if c =? 63 then 0xFF1F
  else if (c =? 39) || (c =? 96) then 0x2019
  else c.

(** The characters that the table changes. *)
Definition substituted (c : codepoint) : bool :=
  ((65 <=? c) && (c <=? 90)) || (c =? 33) || (c =? 63) || (c =? 39)
  || (c =? 96).

(** The characters that the table puts in place of others. *)
Definition is_substitute (c : codepoint) : bool :=
  ((0x1D5A0 <=? c) && (c <=? 0x1D5B9)) || (c =? 0x01C3) || (c =? 0xFF1F)
  || (c =? 0x2019).

(** Two characters that are stored as the same character: they are
    equal, or one is the substitute of the other, or they are the
    apostrophe and the backtick. *)
Definition stored_alike (c1 c2 : codepoint) : Prop :=
  c1 = c2 \/ c2 = substitute c1 \/ c1 = substitute c2
  \/ ((c1 = 39 \/ c1 = 96) /\ (c2 = 39 \/ c2 = 96)).

(** Microseconds from a clock reading to the next midnight, the one
    that the updater calls [next_midnight]: the start of the following
    day. *)
Definition microseconds_until_next_midnight (now : DateTime.datetime) : Z :=
  (86400 * 1000000
   - (DateTime.seconds_of_day now * 1000000 + DateTime.microsecond now))%Z.

(** The whole seconds in that. *)
Definition whole_seconds_until_next_midnight (now : DateTime.datetime) : Z :=
  (microseconds_until_next_midnight now / 1000000)%Z.

(** Ranking by descending similarity with ties broken by the position in
    the list: [x] goes before [y]. *)
Definition by_score_then_position (x y : Q * nat * str) : bool :=
  match Qcompare x.1.1 y.1.1 with
  | Gt => true
  | Eq => (x.1.2 <=? y.1.2)%nat
  | Lt => false
  end.

(** The fuzzy matches as the specification describes them: the first
    [n] of the names whose similarity to the query is at least
    [cutoff], so ranked. *)
Definition fuzzy_matches (query : str) (names : list str) (n : nat)
    (cutoff : Q) : list str :=
  let scored :=
    imap (fun i name => (Difflib.ratio name query, i, name)) names in
  let candidates :=
    List.filter (fun x : Q * nat * str => Qle_bool cutoff x.1.1) scored in
  map snd (take n (merge_sort (leb_rel by_score_then_position) candidates)).

(** The result set of a search as the specification describes it. *)
Definition search_result_set (query : str) (names : list str) : gset str :=
  list_to_set (List.filter (fun name => contains name query) names)
  ∪ list_to_set (fuzzy_matches query names 10 (7 # 10)).

End Spec.

(** [str(n)] for a non-negative integer. *)
Definition str_of_nat (n : nat) : str :=
  lit (NilEmpty.string_of_uint (Nat.to_uint n)).

(** [list_command]: the names of the store, bulleted and sorted, in a
    paginator, or a plain embed when there are none. *)
Definition list_command (ctx : Context) (names_answer : result Z (list str))
    : M unit :=
  (result <~ api_get names_url None names_answer ;;
   let lines := sorted (map bullet result) in
   let title := lit "Known off-topic names (`" ++ str_of_nat (length result)
                ++ lit "` total)" in
   match result with
   | _ :: _ => emit (EvPaginate lines title 400%Z false)
   | [] =>
       emit (EvSendEmbed title
                         (lit "Hmmm, seems like there's nothing here yet."))
   end)%run.

(** The requests and the channel edits among the calls of a run. *)
Definition is_get (e : event) : bool :=
  match e with EvGet _ _ => true | _ => false end.

Definition is_edit (e : event) : bool :=
  match e with EvChannelEdit _ _ => true | _ => false end.

(** ** Invariants of the matcher, used in the proofs below *)

Module DifflibInv.

(** [a[i+t] == b[j+t]] for every [t < k], inside both sequences. *)
Definition matches_at (a b : str) (i j k : nat) : Prop :=
  forall t : nat, (t < k)%nat ->
    exists x, a !! (i + t)%nat = Some x /\ b !! (j + t)%nat = Some x.

(** A block inside the region [a[alo:ahi]], [b[blo:bhi]] whose two
    sides are equal. *)
Definition block_ok (a b : str) (alo ahi blo bhi : nat)
    (m : Difflib.Match) : Prop :=
  let '(i, j, k) := m in
  (alo <= i /\ i + k <= ahi /\ blo <= j /\ j + k <= bhi)%nat
  /\ matches_at a b i j k.

(** The entries of [j2len] on entering row [i]: each is the length of a
    run of equal elements that ends at [a[i-1]] and [b[j]]. *)
Definition row_ok (a b : str) (alo blo bhi i : nat)
    (j2len : gmap nat nat) : Prop :=
  forall j k : nat, j2len !! j = Some k ->
    (1 <= k /\ k <= i - alo /\ k <= j + 1 - blo /\ j < bhi)%nat
    /\ matches_at a b (i - k) (j + 1 - k) k.

Definition region_ok (r : Difflib.region) : Prop :=
  let '(alo, ahi, blo, bhi) := r in (alo <= ahi /\ blo <= bhi)%nat.

(** [s[lo:hi]] *)
Definition slice (s : str) (lo hi : nat) : str := take (hi - lo) (drop lo s).

(** The number of elements that two slices share, counted with
    multiplicity. *)
Definition shared (a b : str) (r : Difflib.region) : nat :=
  let '(alo, ahi, blo, bhi) := r in
  size (list_to_set_disj (slice a alo ahi) ∩ list_to_set_disj (slice b blo bhi)
        : gmultiset N).

(** The bound on the turns that the queue loop still takes. *)
Definition turns (r : Difflib.region) : nat :=
  let '(alo, ahi, _, _) := r in (2 * (ahi - alo) + 1)%nat.

(** What the loop of [quick_ratio] holds after the elements [seen]:
    [avail] counts what is left of each element of [b], and [matches]
    what [seen] and [b] share. *)
Definition quick_ok (b : str) (seen : gmultiset N) (st : gmap N Z * nat)
    : Prop :=
  (forall e,
     match st.1 !! e with
     | Some n =>
         n = (Z.of_nat (multiplicity e (list_to_set_disj b : gmultiset N))
              - Z.of_nat (multiplicity e seen))%Z
     | None => multiplicity e seen = 0%nat
     end)
  /\ st.2 = size (seen ∩ list_to_set_disj b).

End DifflibInv.

(** [x] is ranked no later than [y] among the close matches of [word]:
    it is more similar, or as similar and not smaller as a string. *)
Definition ranks_before (word x y : str) : Prop :=
  (Difflib.ratio y word < Difflib.ratio x word)%Q
  \/ ((Difflib.ratio x word == Difflib.ratio y word)%Q
      /\ str_leb y x = true).

(** ** Reachable states of the cog *)

(** What every reachable cog satisfies: either no task was made and the
    attribute is [None], or exactly one task was made and the attribute
    holds it. *)
Inductive cog_ok : cog -> Prop :=
  | cog_ok_fresh : cog_ok {| tasks := []; updater_task := None |}
  | cog_ok_started (st : task_state) :
      cog_ok {| tasks := [st]; updater_task := Some 0%nat |}.

(** * Properties *)

(** ** The substitution table *)

Lemma table_arguments_length :
  length allowed_characters = 31%nat
  /\ length replacement_characters = 31%nat.
Proof. split; reflexivity. Qed.

Lemma foldl_insert_lookup_other (l : list (N * N)) (m : gmap N N) (c : N) :
  c ∉ l.*1 ->
  foldl (fun m p => <[p.1 := p.2]> m) m l !! c = m !! c.
Proof.
  revert m. induction l as [|[k v] l IH]; intros m Hc; [done|].
  cbn [foldl]. rewrite IH.
  - apply lookup_insert_ne. cbn. intros ->. apply Hc. cbn. left.
  - intros H. apply Hc. cbn. by right.
Qed.

Lemma zip_keys_subseteq (x y : str) (c : N) : c ∈ (zip x y).*1 -> c ∈ x.
Proof.
  revert y. induction x as [|a x IH]; intros [|b y]; cbn; try by inversion 1.
  intros [->|H]%elem_of_cons; [left | right; eauto].
Qed.

Lemma maketrans_lookup_other (x y : str) (c : N) :
  c ∉ x -> maketrans x y !! c = None.
Proof.
  intros Hc. unfold maketrans. rewrite foldl_insert_lookup_other.
  - apply lookup_empty.
  - intros H. apply Hc. eapply zip_keys_subseteq, H.
Qed.

(** A property of code points that holds on the first 128 by
    evaluation. *)
Lemma below_128 (P : N -> bool) :
  forallb P (map N.of_nat (seq 0 128)) = true ->
  forall c, c < 128 -> P c = true.
Proof.
  intros H c Hc. rewrite forallb_forall in H. apply H.
  apply in_map_iff. exists (N.to_nat c). split; [lia|].
  apply in_seq. lia.
Qed.

Lemma allowed_characters_ascii (c : N) : c ∈ allowed_characters -> c < 128.
Proof.
  intros H. assert (F : Forall (fun c => c < 128) allowed_characters).
  { unfold allowed_characters. cbn. repeat constructor. }
  rewrite Forall_forall in F. auto.
Qed.

(** The dictionary built by [str.maketrans] is the table written out. *)
Lemma translate_char_table (c : codepoint) :
  translate_char table c = Spec.substitute c.
Proof.
  destruct (N.lt_ge_cases c 128) as [Hlt|Hge].
  - apply N.eqb_eq.
    apply (below_128 (fun c => translate_char table c =? Spec.substitute c));
      [vm_compute; reflexivity | exact Hlt].
  - unfold translate_char, table.
    rewrite maketrans_lookup_other.
    + unfold Spec.substitute.
      repeat match goal with
             | |- context [?x <=? ?y] => destruct (N.leb_spec x y)
             | |- context [?x =? ?y] => destruct (N.eqb_spec x y)
             end; cbv [andb orb]; lia.
    + intros H%allowed_characters_ascii. lia.
Qed.

Lemma contains_char_elem_of (c : codepoint) (s : str) :
  contains_char c s = true <-> c ∈ s.
Proof.
  unfold contains_char. rewrite existsb_exists. split.
  - intros (x & Hin & ->%N.eqb_eq). by apply list_elem_of_In.
  - intros H. exists c. split; [by apply list_elem_of_In | apply N.eqb_refl].
Qed.

(** On the allowed alphabet two different characters get the same
    substitute only if they are the apostrophe and the backtick. *)
Lemma substitute_collision (c1 c2 : codepoint) :
  c1 ∈ allowed_characters -> c2 ∈ allowed_characters -> c1 <> c2 ->
  (translate_char table c1 = translate_char table c2
   <-> (c1 = 39 /\ c2 = 96) \/ (c1 = 96 /\ c2 = 39)).
Proof.
  intros H1 H2 Hne.
  assert (Hall : forallb (fun a => forallb (fun b =>
            (a =? b) || Bool.eqb (translate_char table a =? translate_char table b)
                          (((a =? 39) && (b =? 96)) || ((a =? 96) && (b =? 39))))
            allowed_characters) allowed_characters = true)
    by (vm_compute; reflexivity).
  rewrite forallb_forall in Hall.
  apply list_elem_of_In, Hall in H1. rewrite forallb_forall in H1.
  apply list_elem_of_In, H1 in H2.
  apply orb_true_iff in H2 as [H2%N.eqb_eq|H2]; [contradiction|].
  apply Bool.eqb_prop in H2.
  split.
  - intros E%N.eqb_eq. rewrite E in H2. symmetry in H2.
    apply orb_true_iff in H2 as [H2|H2]; apply andb_true_iff in H2 as [?%N.eqb_eq ?%N.eqb_eq]; auto.
  - intros H. apply N.eqb_eq. rewrite H2.
    destruct H as [[-> ->]|[-> ->]]; reflexivity.
Qed.

Lemma translate_injective (s1 s2 : str) :
  Forall (fun c => c ∈ allowed_characters /\ c <> 96) s1 ->
  Forall (fun c => c ∈ allowed_characters /\ c <> 96) s2 ->
  translate table s1 = translate table s2 -> s1 = s2.
Proof.
  intros F1. revert s2. induction F1 as [|c1 s1 [Hc1 Hq1] F1 IH];
    intros s2 F2 E; destruct F2 as [|c2 s2 [Hc2 Hq2] F2]; try discriminate E;
    [reflexivity|].
  cbn [translate map] in E. injection E as Ec Es. f_equal; [|apply IH; assumption].
  destruct (decide (c1 = c2)) as [|Hne]; [assumption|].
  apply (substitute_collision c1 c2 Hc1 Hc2 Hne) in Ec. lia.
Qed.

Section ConverterFacts.

Variable isalnum : codepoint -> bool.

Lemma convert_Ok (argument out : str) :
  convert isalnum argument = Ok out <->
  2 <= len argument <= 96
  /\ forallb (char_ok isalnum) argument = true
  /\ out = translate table argument.
Proof.
  unfold convert.
  destruct (N.leb_spec 2 (len argument)), (N.leb_spec (len argument) 96);
    cbv [negb andb]; try (split; [discriminate | lia]).
  destruct (forallb (char_ok isalnum) argument); cbv [negb].
  - split; [intros [= <-]; auto | intros (_ & _ & ->); reflexivity].
  - split; [discriminate | intros (_ & ? & _); discriminate].
Qed.

Lemma convert_InvalidLength (argument : str) :
  convert isalnum argument = Raise InvalidLength <->
  ~ (2 <= len argument <= 96).
Proof.
  unfold convert.
  destruct (N.leb_spec 2 (len argument)), (N.leb_spec (len argument) 96);
    cbv [negb andb]; try (split; [lia | reflexivity]).
  destruct (forallb (char_ok isalnum) argument); cbv [negb];
    (split; [discriminate | lia]).
Qed.

(** A string over the allowed alphabet passes the character test
    whatever [isalnum] says. *)
Lemma allowed_characters_ok (s : str) :
  Forall (fun c => c ∈ allowed_characters) s ->
  forallb (char_ok isalnum) s = true.
Proof.
  intros F. apply forallb_forall. intros c Hc%list_elem_of_In.
  rewrite Forall_forall in F. unfold char_ok.
  apply orb_true_iff. right. by apply contains_char_elem_of, F.
Qed.

End ConverterFacts.

Ltac split_comparisons :=
  repeat match goal with
         | |- context [?x <=? ?y] => destruct (N.leb_spec x y)
         | |- context [?x =? ?y] => destruct (N.eqb_spec x y)
         end;
  cbv [andb orb negb].

Lemma substitute_fixed (c : codepoint) :
  Spec.substitute c = c <-> Spec.substituted c = false.
Proof.
  unfold Spec.substitute, Spec.substituted. split_comparisons;
    split; intros; try discriminate; try reflexivity; lia.
Qed.

Lemma substitute_not_substituted (c : codepoint) :
  Spec.substituted (Spec.substitute c) = false.
Proof.
  unfold Spec.substitute.
  destruct (N.leb_spec 65 c), (N.leb_spec c 90); cbv [andb];
    try (unfold Spec.substituted; split_comparisons; (reflexivity || lia)).
  all: destruct (N.eqb_spec c 33); [reflexivity|];
    destruct (N.eqb_spec c 63); [reflexivity|];
    destruct (N.eqb_spec c 39); [reflexivity|];
    destruct (N.eqb_spec c 96); [reflexivity|]; cbv [orb];
    unfold Spec.substituted; split_comparisons; (reflexivity || lia).
Qed.

Lemma translate_table_substitute (s : str) :
  translate table s = map Spec.substitute s.
Proof.
  unfold translate. apply map_ext. intros c. apply translate_char_table.
Qed.

Lemma map_substitute_fixed (s : str) :
  map Spec.substitute s = s <-> Forall (fun c => Spec.substituted c = false) s.
Proof.
  induction s as [|c s IH]; cbn [map].
  - split; [constructor | reflexivity].
  - split.
    + intros [= Hc Hs]. constructor; [by apply substitute_fixed | by apply IH].
    + intros F. apply Forall_cons in F as [Hc Hs]. f_equal;
        [by apply substitute_fixed | by apply IH].
Qed.

(** ** Claims about the converter *)

(** What the table does to a character that it changes. *)
Lemma substituted_cases (c : codepoint) :
  Spec.substituted c = true ->
  (65 <= c <= 90 /\ Spec.substitute c = c - 65 + 0x1D5A0)
  \/ (c = 33 /\ Spec.substitute c = 0x01C3)
  \/ (c = 63 /\ Spec.substitute c = 0xFF1F)
  \/ ((c = 39 \/ c = 96) /\ Spec.substitute c = 0x2019).
Proof.
  unfold Spec.substituted, Spec.substitute.
  destruct (N.leb_spec 65 c), (N.leb_spec c 90); cbv [andb orb];
    try (intros _; left; split; [lia | reflexivity]).
  all: destruct (N.eqb_spec c 33) as [->|];
    [intros _; right; left; split; reflexivity|];
    destruct (N.eqb_spec c 63) as [->|];
    [intros _; right; right; left; split; reflexivity|];
    destruct (N.eqb_spec c 39) as [->|];
    [intros _; right; right; right; split; [by left | reflexivity]|];
    destruct (N.eqb_spec c 96) as [->|];
    [intros _; right; right; right; split; [by right | reflexivity]|];
    discriminate.
Qed.

Lemma substituted_is_substitute (c : codepoint) :
  Spec.substituted c = true -> Spec.is_substitute (Spec.substitute c) = true.
Proof.
  intros [[H ->]|[[_ ->]|[[_ ->]|[_ ->]]]]%substituted_cases;
    [|reflexivity..].
  unfold Spec.is_substitute.
  destruct (N.leb_spec 0x1D5A0 (c - 65 + 0x1D5A0)); [|lia].
  destruct (N.leb_spec (c - 65 + 0x1D5A0) 0x1D5B9); [reflexivity|lia].
Qed.

(** Two characters get the same substitute exactly when they are stored
    alike. *)
Lemma substitute_stored_alike (c1 c2 : codepoint) :
  Spec.substitute c1 = Spec.substitute c2 <-> Spec.stored_alike c1 c2.
Proof.
  assert (Hfix : forall c, Spec.substituted c = false -> Spec.substitute c = c)
    by (intros c; apply substitute_fixed).
  assert (Hidem : forall c,
            Spec.substitute (Spec.substitute c) = Spec.substitute c)
    by (intros c; apply substitute_fixed, substitute_not_substituted).
  split.
  - intros E. unfold Spec.stored_alike.
    destruct (Spec.substituted c1) eqn:S1, (Spec.substituted c2) eqn:S2.
    + apply substituted_cases in S1, S2.
      destruct S1 as [[R1 E1]|[[R1 E1]|[[R1 E1]|[R1 E1]]]];
        destruct S2 as [[R2 E2]|[[R2 E2]|[[R2 E2]|[R2 E2]]]];
        rewrite E1, E2 in E; lia.
    + right. left. rewrite (Hfix c2 S2) in E. congruence.
    + right. right. left. rewrite (Hfix c1 S1) in E. congruence.
    + left. rewrite (Hfix c1 S1), (Hfix c2 S2) in E. exact E.
  - intros [->|[->|[->|[H1 H2]]]]; [reflexivity| | |].
    + by rewrite Hidem.
    + by rewrite Hidem.
    + destruct H1 as [-> | ->], H2 as [-> | ->]; reflexivity.
Qed.

Lemma map_substitute_stored_alike (s1 s2 : str) :
  map Spec.substitute s1 = map Spec.substitute s2
  <-> Forall2 Spec.stored_alike s1 s2.
Proof.
  revert s2. induction s1 as [|c1 s1 IH]; intros [|c2 s2]; cbn [map].
  - split; [constructor | reflexivity].
  - split; [discriminate | inversion 1].
  - split; [discriminate | inversion 1].
  - split.
    + intros [= Hc Hs].
      constructor; [by apply substitute_stored_alike | by apply IH].
    + intros H. apply Forall2_cons in H as [Hc Hs]. f_equal;
        [by apply substitute_stored_alike | by apply IH].
Qed.

(** Apart from the backtick and the substitutes themselves, characters
    that are stored alike are equal. *)
Lemma stored_alike_plain (c1 c2 : codepoint) :
  c1 <> 96 -> Spec.is_substitute c1 = false ->
  c2 <> 96 -> Spec.is_substitute c2 = false ->
  Spec.stored_alike c1 c2 -> c1 = c2.
Proof.
  intros Q1 P1 Q2 P2 [H|[H|[H|[H1 H2]]]]; [exact H| | |lia].
  - subst c2. destruct (Spec.substituted c1) eqn:S1.
    + rewrite (substituted_is_substitute c1 S1) in P2. discriminate.
    + symmetry. by apply substitute_fixed.
  - subst c1. destruct (Spec.substituted c2) eqn:S2.
    + rewrite (substituted_is_substitute c2 S2) in P1. discriminate.
    + by apply substitute_fixed.
Qed.

(** C1, refuted as stated: the apostrophe and the backtick are two
    different allowed characters with the same substitute, U+2019, and
    the two valid names [it's] and [it`s] are stored as the same string.
    A second family of valid names collides as well: a substitute that
    is itself alphanumeric, such as U+1D5A0 for [A], is a valid
    character that is stored unchanged, so [AA] and the name of two
    U+1D5A0 are stored as the same string. *)
Lemma table_not_injective :
  39 ∈ allowed_characters /\ 96 ∈ allowed_characters /\ 39 <> 96
  /\ translate_char table 39 = translate_char table 96
  /\ lit "it's" <> lit "it`s"
  /\ (exists out, convert ascii_isalnum (lit "it's") = Ok out
                  /\ convert ascii_isalnum (lit "it`s") = Ok out)
  /\ lit "AA" <> [0x1D5A0; 0x1D5A0]
  /\ (exists out, convert table_isalnum (lit "AA") = Ok out
                  /\ convert table_isalnum [0x1D5A0; 0x1D5A0] = Ok out).
Proof.
  split; [by apply contains_char_elem_of|].
  split; [by apply contains_char_elem_of|].
  split; [discriminate|].
  split; [by vm_compute|].
  split; [discriminate|].
  split; [eexists; split; vm_compute; reflexivity|].
  split; [discriminate|].
  eexists. split; vm_compute; reflexivity.
Qed.

(** C1, as amended: on the allowed alphabet the table sends two
    different characters to the same character only if they are the
    apostrophe and the backtick (both go to U+2019).  Two valid names
    are stored as the same string exactly when they have the same
    length and at every position the two characters are equal, or are
    the apostrophe and the backtick, or one is the substitute of the
    other (a substitute can occur in a valid name only if it is
    alphanumeric).  Hence two different valid names that contain no
    backtick and no substitute character, whatever else they contain
    (capitals, lower-case letters, digits, punctuation), are stored as
    different strings. *)
Theorem table_injective_except_quotes (isalnum : codepoint -> bool)
    (c1 c2 : codepoint) :
  c1 ∈ allowed_characters -> c2 ∈ allowed_characters -> c1 <> c2 ->
  (translate_char table c1 = translate_char table c2
   <-> (c1 = 39 /\ c2 = 96) \/ (c1 = 96 /\ c2 = 39))
  /\ (forall s1 s2 o1 o2 : str,
        convert isalnum s1 = Ok o1 -> convert isalnum s2 = Ok o2 ->
        (o1 = o2 <-> Forall2 Spec.stored_alike s1 s2))
  /\ (forall s1 s2 o1 o2 : str,
        Forall (fun c => c <> 96 /\ Spec.is_substitute c = false) s1 ->
        Forall (fun c => c <> 96 /\ Spec.is_substitute c = false) s2 ->
        convert isalnum s1 = Ok o1 -> convert isalnum s2 = Ok o2 ->
        s1 <> s2 -> o1 <> o2).
Proof.
  intros H1 H2 Hne. split; [by apply substitute_collision|].
  assert (Hiff : forall s1 s2 o1 o2 : str,
            convert isalnum s1 = Ok o1 -> convert isalnum s2 = Ok o2 ->
            (o1 = o2 <-> Forall2 Spec.stored_alike s1 s2)).
  { intros s1 s2 o1 o2 E1 E2.
    apply convert_Ok in E1 as (_ & _ & ->).
    apply convert_Ok in E2 as (_ & _ & ->).
    rewrite !translate_table_substitute. apply map_substitute_stored_alike. }
  split; [exact Hiff|].
  intros s1 s2 o1 o2 F1 F2 E1 E2 Hs Ho. apply Hs.
  apply (Hiff s1 s2 o1 o2 E1 E2) in Ho. clear E1 E2 Hs.
  induction Ho as [|a b s1 s2 Hab Ho IH]; [reflexivity|].
  apply Forall_cons in F1 as [[Qa Pa] F1].
  apply Forall_cons in F2 as [[Qb Pb] F2].
  f_equal; [by apply stored_alike_plain | by apply IH].
Qed.

Lemma table_injective_except_quotes_witness :
  (translate_char table 39 = translate_char table 96
   <-> (39 = 39 /\ 96 = 96) \/ (39 = 96 /\ 96 = 39))
  /\ (translate table (lit "it's") = translate table (lit "it`s")
      <-> Forall2 Spec.stored_alike (lit "it's") (lit "it`s"))
  /\ translate table (lit "it's-1A") <> translate table (lit "it's-2A").
Proof.
  destruct (table_injective_except_quotes ascii_isalnum 39 96)
    as (Hc & Hiff & Hs).
  - apply contains_char_elem_of. reflexivity.
  - apply contains_char_elem_of. reflexivity.
  - discriminate.
  - split; [exact Hc|]. split.
    + apply (Hiff (lit "it's") (lit "it`s")); vm_compute; reflexivity.
    + apply (Hs (lit "it's-1A") (lit "it's-2A")).
      * repeat constructor; discriminate.
      * repeat constructor; discriminate.
      * vm_compute; reflexivity.
      * vm_compute; reflexivity.
      * discriminate.
Defined.

(** C7, refuted as stated: the argument [" A "] has three characters and
    one after trimming; its trimmed length is outside [2, 96], yet the
    converter does not raise the length error (the length test passes
    and the character test rejects the spaces). *)
Lemma length_error_ignores_trimming :
  len (Spec.trimmed (lit " A ")) = 1
  /\ convert ascii_isalnum (lit " A ") = Raise InvalidCharacters
  /\ ~ (convert ascii_isalnum (lit " A ") = Raise InvalidLength
        <-> ~ (2 <= len (Spec.trimmed (lit " A ")) <= 96)).
Proof.
  split; [reflexivity|]. split; [reflexivity|].
  intros [_ H].
  assert (E : convert ascii_isalnum (lit " A ") = Raise InvalidLength).
  { apply H. intros [H' _]. vm_compute in H'. by apply H'. }
  discriminate E.
Qed.

(** C7, as amended: the converter raises the length error exactly when
    the length of the argument as given, counted in characters and not
    trimmed, is outside [2, 96]; a failing conversion yields no
    converted name, and a command whose argument fails it ends with that
    error before it has called the store, the log or the channel. *)
Theorem convert_length_error (isalnum : codepoint -> bool) (argument : str) :
  (convert isalnum argument = Raise InvalidLength
   <-> ~ (2 <= len argument <= 96))
  /\ (forall e : BadArgument,
        convert isalnum argument = Raise e ->
        (forall out, convert isalnum argument <> Ok out)
        /\ (forall ctx rest answer,
              add_command isalnum ctx (argument :: rest) answer
              = ([], Raise (ExBadArgument e)))
        /\ (forall ctx answer,
              search_command isalnum ctx argument answer
              = ([], Raise (ExBadArgument e)))).
Proof.
  split; [apply convert_InvalidLength|].
  intros e E. split; [|split].
  - intros out. rewrite E. discriminate.
  - intros ctx rest answer. unfold add_command.
    cbn [convert_each]. rewrite E. reflexivity.
  - intros ctx answer. unfold search_command. rewrite E. reflexivity.
Qed.

Lemma convert_length_error_witness :
  let ctx := {| author_name := lit "mod"; author_discriminator := lit "0001" |} in
  convert ascii_isalnum (lit "a") = Raise InvalidLength
  /\ add_command ascii_isalnum ctx [lit "a"; lit "name"] (Ok tt)
     = ([], Raise (ExBadArgument InvalidLength))
  /\ search_command ascii_isalnum ctx (lit "a") (Ok [lit "a"])
     = ([], Raise (ExBadArgument InvalidLength)).
Proof.
  intros ctx.
  destruct (convert_length_error ascii_isalnum (lit "a")) as [[_ Hlen] Hfail].
  assert (E : convert ascii_isalnum (lit "a") = Raise InvalidLength).
  { apply Hlen. vm_compute. intros [H _]. by apply H. }
  destruct (Hfail InvalidLength E) as (_ & Hadd & Hsearch).
  split; [exact E|]. split; [apply Hadd | apply Hsearch].
Defined.

(** C8, refuted as stated: the valid name [ot-names] is stored exactly
    as typed; its ASCII letters are lower case, which the table does
    not touch, and the hyphen is mapped to itself. *)
Lemma lowercase_name_stored_verbatim :
  convert ascii_isalnum (lit "ot-names") = Ok (lit "ot-names").
Proof. vm_compute. reflexivity. Qed.

(** C8, as amended: for every valid input the stored value is the input
    with each ASCII capital replaced by the sans-serif capital at
    U+1D5A0 plus its offset from [A], [!] by U+01C3, [?] by U+FF1F, the
    apostrophe and the backtick by U+2019, and every other character
    (lower-case letters, digits, other alphanumerics, the hyphen) kept;
    the stored value has the length of the input and none of the
    replaced characters, and it differs from what was typed exactly when
    the input has one of them. *)
Theorem convert_substitutes (isalnum : codepoint -> bool)
    (argument out : str) :
  convert isalnum argument = Ok out ->
  out = map Spec.substitute argument
  /\ length out = length argument
  /\ Forall (fun d => Spec.substituted d = false) out
  /\ (out = argument
      <-> Forall (fun c => Spec.substituted c = false) argument).
Proof.
  intros (_ & _ & ->)%convert_Ok. rewrite translate_table_substitute.
  split; [reflexivity|]. split; [apply length_map|]. split.
  - apply Forall_map, Forall_forall. intros c _.
    apply substitute_not_substituted.
  - apply map_substitute_fixed.
Qed.

Lemma convert_substitutes_witness :
  translate table (lit "OT!") = map Spec.substitute (lit "OT!")
  /\ length (translate table (lit "OT!")) = length (lit "OT!")
  /\ Forall (fun d => Spec.substituted d = false) (translate table (lit "OT!"))
  /\ (translate table (lit "OT!") = lit "OT!"
      <-> Forall (fun c => Spec.substituted c = false) (lit "OT!")).
Proof.
  apply (convert_substitutes ascii_isalnum (lit "OT!")).
  vm_compute. reflexivity.
Defined.


(** ** The sleep of the updater *)

Module SleepFacts.
Import DateTime.
Local Open Scope Z_scope.

(** [today_at_midnight + timedelta(days=1)] is the start of the next
    day. *)
Lemma next_midnight_fields (now : datetime) :
  add (replace_time now 0 0 0 0) (mk_timedelta 1 0 0)
  = {| ordinal := ordinal now + 1; hour := 0; minute := 0; second := 0;
       microsecond := 0 |}.
Proof.
  change (mk_timedelta 1 0 0)
    with {| days := 1; seconds := 0; microseconds := 0 |}.
  unfold add, replace_time, seconds_of_day.
  cbn [ordinal hour minute second microsecond days seconds microseconds].
  change (mk_timedelta (ordinal now + 1) (0 + 0 * 60 + 0 * 3600 + 0) (0 + 0))
    with {| days := ordinal now + 1 + 0; seconds := 0; microseconds := 0 |}.
  cbn [days seconds microseconds]. rewrite Z.add_0_r. reflexivity.
Qed.

Lemma next_midnight_sub (now_1 now_2 : datetime) :
  sub (add (replace_time now_1 0 0 0 0) (mk_timedelta 1 0 0)) now_2
  = mk_timedelta (ordinal now_1 + 1 - ordinal now_2)
                 (- seconds_of_day now_2) (- microsecond now_2).
Proof. rewrite next_midnight_fields. reflexivity. Qed.

Lemma seconds_of_day_range (now : datetime) :
  valid now -> 0 <= seconds_of_day now < 86400.
Proof. unfold valid, seconds_of_day. lia. Qed.

(** Whatever the first reading, the sleep is the whole seconds from the
    second reading to the next midnight plus one, unless the second
    reading is a midnight to the microsecond. *)
Lemma seconds_to_sleep_until_next_midnight (now_1 now_2 : datetime) :
  valid now_2 ->
  seconds_of_day now_2 <> 0 \/ microsecond now_2 <> 0 ->
  seconds_to_sleep now_1 now_2
  = Spec.whole_seconds_until_next_midnight now_2 + 1.
Proof.
  intros Hv Hnz. pose proof (seconds_of_day_range now_2 Hv) as Hs.
  unfold seconds_to_sleep. rewrite next_midnight_sub.
  unfold mk_timedelta. cbn [seconds].
  unfold Spec.whole_seconds_until_next_midnight,
    Spec.microseconds_until_next_midnight.
  destruct Hv as (_ & _ & _ & Hus).
  set (s := seconds_of_day now_2) in *. set (u := microsecond now_2) in *.
  f_equal.
  destruct (Z.eq_dec u 0) as [->|Hu].
  - replace (- 0 / 1000000) with 0 by reflexivity.
    replace ((86400 * 1000000 - (s * 1000000 + 0)) / 1000000) with (86400 - s)
      by (apply Z.div_unique_pos with (r := 0); lia).
    symmetry. apply Z.mod_unique_pos with (q := -1); lia.
  - replace (- u / 1000000) with (-1)
      by (apply Z.div_unique_pos with (r := 1000000 - u); lia).
    replace ((86400 * 1000000 - (s * 1000000 + u)) / 1000000) with (86399 - s)
      by (apply Z.div_unique_pos with (r := 1000000 - u); lia).
    symmetry. apply Z.mod_unique_pos with (q := -1); lia.
Qed.

Lemma seconds_to_sleep_until_next_midnight_witness :
  seconds_to_sleep
    {| ordinal := 737000; hour := 12; minute := 30; second := 15;
       microsecond := 250000 |}
    {| ordinal := 737000; hour := 12; minute := 30; second := 15;
       microsecond := 250007 |}
  = Spec.whole_seconds_until_next_midnight
      {| ordinal := 737000; hour := 12; minute := 30; second := 15;
         microsecond := 250007 |} + 1.
Proof.
  apply seconds_to_sleep_until_next_midnight.
  - unfold valid; cbn; lia.
  - left. discriminate.
Defined.

(** The sleep is always between one second and a day. *)
Lemma seconds_to_sleep_range (now_1 now_2 : datetime) :
  1 <= seconds_to_sleep now_1 now_2 <= 86400.
Proof.
  unfold seconds_to_sleep. rewrite next_midnight_sub.
  unfold mk_timedelta. cbn [seconds].
  pose proof (Z.mod_pos_bound
    (- seconds_of_day now_2 + - microsecond now_2 / 1000000) 86400).
  lia.
Qed.

(** C4, at the reading where the code leaves the claim: a clock that
    reads midnight to the microsecond.  [next_midnight] is a whole day
    away, 86400 whole seconds, so the claim gives a sleep of 86401
    seconds; the [seconds] field of a [timedelta] of exactly one day is
    0, and the loop sleeps one second. *)
Theorem seconds_to_sleep_at_midnight (day : Z) :
  let midnight :=
    {| ordinal := day; hour := 0; minute := 0; second := 0;
       microsecond := 0 |} in
  seconds_to_sleep midnight midnight = 1
  /\ sub (add (replace_time midnight 0 0 0 0) (mk_timedelta 1 0 0)) midnight
     = {| days := 1; seconds := 0; microseconds := 0 |}
  /\ Spec.whole_seconds_until_next_midnight midnight + 1 = 86401.
Proof.
  cbv zeta. split; [reflexivity|]. split; [|reflexivity].
  rewrite next_midnight_sub.
  cbn [ordinal microsecond]. replace (day + 1 - day) with 1 by lia.
  reflexivity.
Qed.

(** The example of the claim: at 23:59:59 the loop sleeps two seconds. *)
Lemma seconds_to_sleep_last_second (day : Z) :
  let now :=
    {| ordinal := day; hour := 23; minute := 59; second := 59;
       microsecond := 0 |} in
  seconds_to_sleep now now = 2.
Proof. reflexivity. Qed.

End SleepFacts.

(** ** The updater loop *)

Section UpdaterFacts.

Variables off_topic_0 off_topic_1 off_topic_2 : Z.

Lemma update_step_failure (c : cycle) (status : Z) :
  names_answer c = Raise status ->
  update_step off_topic_0 off_topic_1 off_topic_2 c
  = ([EvSleep (seconds_to_sleep (utcnow_1 c) (utcnow_2 c));
      EvGet names_url (Some 3%Z); EvLogError status], Ok tt).
Proof. intros E. unfold update_step. rewrite E. reflexivity. Qed.

Lemma update_step_malformed (c : cycle) (names : list str) :
  names_answer c = Ok names -> length names <> 3%nat ->
  update_step off_topic_0 off_topic_1 off_topic_2 c
  = ([EvSleep (seconds_to_sleep (utcnow_1 c) (utcnow_2 c));
      EvGet names_url (Some 3%Z)], Raise ExValueError).
Proof.
  intros E Hlen. unfold update_step. rewrite E.
  destruct names as [|a [|b [|d [|e names]]]]; try reflexivity.
  cbn in Hlen. lia.
Qed.

Lemma update_names_cons (c : cycle) (rest : list cycle) :
  update_names off_topic_0 off_topic_1 off_topic_2 (c :: rest)
  = bind (update_step off_topic_0 off_topic_1 off_topic_2 c)
         (fun _ => update_names off_topic_0 off_topic_1 off_topic_2 rest).
Proof. reflexivity. Qed.

(** Every turn of the loop starts with the sleep. *)
Lemma update_step_starts_with_sleep (c : cycle) :
  exists tr,
    (update_step off_topic_0 off_topic_1 off_topic_2 c).1
    = EvSleep (seconds_to_sleep (utcnow_1 c) (utcnow_2 c)) :: tr.
Proof.
  unfold update_step.
  match goal with
  | |- context [bind (emit ?e) ?k] =>
      unfold bind at 1; cbn [emit]; destruct (k tt) as [tr r]
  end.
  eexists. reflexivity.
Qed.

Lemma update_names_starts_with_sleep (c : cycle) (rest : list cycle) :
  exists tr,
    (update_names off_topic_0 off_topic_1 off_topic_2 (c :: rest)).1
    = EvSleep (seconds_to_sleep (utcnow_1 c) (utcnow_2 c)) :: tr.
Proof.
  rewrite update_names_cons.
  destruct (update_step_starts_with_sleep c) as [tr E].
  destruct (update_step off_topic_0 off_topic_1 off_topic_2 c)
    as [tr0 [[]|e]]; cbn [fst] in E; subst tr0; cbn [bind].
  - destruct (update_names off_topic_0 off_topic_1 off_topic_2 rest)
      as [tr' r]. eexists. reflexivity.
  - eexists. reflexivity.
Qed.

(** C2: when the fetch of the three names fails with a status code,
    the turn consists of the sleep, the one request and the error log
    and ends normally; it edits no channel, and the loop goes on with
    the next turn, which starts with its sleep. *)
Theorem update_failure_skips_rename (c : cycle) (rest : list cycle)
    (status : Z) :
  names_answer c = Raise status ->
  let step := update_step off_topic_0 off_topic_1 off_topic_2 in
  let loop := update_names off_topic_0 off_topic_1 off_topic_2 in
  let slept c := EvSleep (seconds_to_sleep (utcnow_1 c) (utcnow_2 c)) in
  let fetched := EvGet names_url (Some 3%Z) in
  step c = ([slept c; fetched; EvLogError status], Ok tt)
  /\ (forall channel name, EvChannelEdit channel name ∉ (step c).1)
  /\ loop (c :: rest)
     = ([slept c; fetched; EvLogError status] ++ (loop rest).1,
        (loop rest).2)
  /\ (forall c' rest', rest = c' :: rest' ->
        exists tr, (loop rest).1 = slept c' :: tr).
Proof.
  intros E. cbv zeta.
  pose proof (update_step_failure c status E) as Hstep.
  split; [exact Hstep|]. split; [|split].
  - intros channel name. rewrite Hstep. cbn [fst].
    intros H. repeat (apply elem_of_cons in H as [H|H]; [discriminate H|]).
    by apply elem_of_nil in H.
  - rewrite update_names_cons, Hstep. cbn [bind].
    destruct (update_names off_topic_0 off_topic_1 off_topic_2 rest)
      as [tr r]. reflexivity.
  - intros c' rest' ->. apply update_names_starts_with_sleep.
Qed.

(** C10: only [ResponseCodeError] is caught.  When the store answers
    with a list that does not have exactly three names, the unpacking
    raises [ValueError] after the sleep and the request; the turn ends
    with that exception and so does the loop, whatever turns would
    have followed. *)
Theorem update_malformed_answer_ends_loop (c : cycle) (rest : list cycle)
    (names : list str) :
  names_answer c = Ok names -> length names <> 3%nat ->
  let step := update_step off_topic_0 off_topic_1 off_topic_2 in
  let loop := update_names off_topic_0 off_topic_1 off_topic_2 in
  let slept := EvSleep (seconds_to_sleep (utcnow_1 c) (utcnow_2 c)) in
  let fetched := EvGet names_url (Some 3%Z) in
  step c = ([slept; fetched], Raise ExValueError)
  /\ loop (c :: rest) = ([slept; fetched], Raise ExValueError).
Proof.
  intros E Hlen. cbv zeta.
  pose proof (update_step_malformed c names E Hlen) as Hstep.
  split; [exact Hstep|]. rewrite update_names_cons, Hstep. reflexivity.
Qed.

End UpdaterFacts.

Lemma update_failure_skips_rename_witness :
  let c := {| utcnow_1 := {| DateTime.ordinal := 737000; DateTime.hour := 23;
                             DateTime.minute := 59; DateTime.second := 59;
                             DateTime.microsecond := 0 |};
              utcnow_2 := {| DateTime.ordinal := 737000; DateTime.hour := 23;
                             DateTime.minute := 59; DateTime.second := 59;
                             DateTime.microsecond := 0 |};
              names_answer := Raise 503%Z;
              get_channel := fun id => Some id |} in
  update_names 10 11 12 [c; c]
  = ([EvSleep 2; EvGet names_url (Some 3%Z); EvLogError 503] ++
     [EvSleep 2; EvGet names_url (Some 3%Z); EvLogError 503], Ok tt).
Proof.
  intros c.
  destruct (update_failure_skips_rename 10 11 12 c [c] 503%Z eq_refl)
    as (_ & _ & E & _).
  rewrite E. reflexivity.
Defined.

Lemma update_malformed_answer_ends_loop_witness :
  let c := {| utcnow_1 := {| DateTime.ordinal := 737000; DateTime.hour := 23;
                             DateTime.minute := 59; DateTime.second := 59;
                             DateTime.microsecond := 0 |};
              utcnow_2 := {| DateTime.ordinal := 737000; DateTime.hour := 23;
                             DateTime.minute := 59; DateTime.second := 59;
                             DateTime.microsecond := 0 |};
              names_answer := Ok [lit "one"; lit "two"];
              get_channel := fun id => Some id |} in
  update_names 10 11 12 [c; c]
  = ([EvSleep 2; EvGet names_url (Some 3%Z)], Raise ExValueError).
Proof.
  intros c.
  destruct (update_malformed_answer_ends_loop 10 11 12 c [c]
              [lit "one"; lit "two"] eq_refl) as [_ E].
  - cbn. lia.
  - exact E.
Defined.

(** ** The updater task of the cog *)

Lemma cog_ok_call (s : cog) (c : cog_call) : cog_ok s -> cog_ok (call s c).
Proof. intros [|st]; destruct c; cbn; constructor. Qed.

Lemma cog_ok_calls (s : cog) (cs : list cog_call) :
  cog_ok s -> cog_ok (calls s cs).
Proof.
  revert s. induction cs as [|c cs IH]; intros s Hs; [exact Hs|].
  cbn. apply IH, cog_ok_call, Hs.
Qed.

(** C6: after any sequence of ready events and unloads on a new cog, the
    loop holds at most one task made by the cog, and it is the one in
    [updater_task].  A ready event makes the task when the attribute is
    [None] and changes nothing when it holds a task; an unload cancels
    the task held, after which none is running. *)
Theorem single_updater_task (cs : list cog_call) :
  let s := calls init cs in
  (length (tasks s) <= 1)%nat
  /\ (updater_task s = None <-> tasks s = [])
  /\ (updater_task s = None ->
        on_ready s = {| tasks := [Running]; updater_task := Some 0%nat |})
  /\ (forall t, updater_task s = Some t ->
        on_ready s = s
        /\ tasks (cog_unload s) !! t = Some Cancelled
        /\ updater_task (cog_unload s) = Some t
        /\ running_tasks (cog_unload s) = 0%nat).
Proof.
  cbv zeta. pose proof (cog_ok_calls init cs cog_ok_fresh) as H.
  destruct H as [|st]; cbn.
  - split; [lia|]. split; [done|]. split; [done|]. intros t [=].
  - split; [lia|]. split; [split; discriminate|]. split; [discriminate|].
    intros t [= <-]. done.
Qed.

(** ** The add command *)

Section CommandFacts.

Variable isalnum : codepoint -> bool.

Lemma convert_each_Ok (words names : list str) :
  convert_each isalnum words = Ok names <->
  Forall (fun w => exists name, convert isalnum w = Ok name) words
  /\ names = map (translate table) words.
Proof.
  revert names. induction words as [|w words IH]; intros names; cbn [convert_each map].
  - split; [intros [= <-]; split; [constructor | reflexivity]
           | intros [_ ->]; reflexivity].
  - destruct (convert isalnum w) as [name|e] eqn:Ew.
    + destruct (convert_each isalnum words) as [names'|e] eqn:Ews.
      * destruct (IH names') as [IH1 _]. destruct (IH1 eq_refl) as [F ->].
        apply convert_Ok in Ew as Ew'. destruct Ew' as (_ & _ & ->).
        split; [intros [= <-]; split; [constructor; eauto | reflexivity]
               | intros [_ ->]; reflexivity].
      * split; [discriminate|]. intros [F _].
        apply Forall_cons in F as [_ F].
        destruct (IH (map (translate table) words)) as [_ IH2].
        discriminate IH2. split; [exact F | reflexivity].
    + split; [discriminate|]. intros [F _].
      apply Forall_cons in F as [[name Hn] _]. congruence.
Qed.

Lemma add_command_converted (ctx : Context) (words names : list str)
    (answer : result Z unit) :
  convert_each isalnum words = Ok names ->
  add_command isalnum ctx words answer
  = match answer with
    | Ok _ =>
        ([EvPost names_url (join (lit "-") names);
          EvLogInfo (author_name ctx ++ lit "#" ++ author_discriminator ctx
                     ++ lit " added the off-topic channel name '"
                     ++ join (lit "-") names);
          EvSend (lit ":ok_hand: Added `" ++ join (lit "-") names
                  ++ lit "` to the names list.")], Ok tt)
    | Raise status =>
        ([EvPost names_url (join (lit "-") names)],
         Raise (ExResponseCodeError status))
    end.
Proof.
  intros E. unfold add_command. rewrite E. destruct answer as [[]|status]; reflexivity.
Qed.

Lemma add_command_rejected (ctx : Context) (words : list str)
    (answer : result Z unit) (e : BadArgument) :
  convert_each isalnum words = Raise e ->
  add_command isalnum ctx words answer = ([], Raise (ExBadArgument e)).
Proof. intros E. unfold add_command. rewrite E. reflexivity. Qed.


(** C9, as amended: after a successful add the confirmation echoes the
    name that was posted to the store, that is the converted words
    joined with [-], not the words as typed. *)
Theorem add_command_confirms_stored_name (ctx : Context)
    (words : list str) (answer : result Z unit) (events : list event) :
  add_command isalnum ctx words answer = (events, Ok tt) ->
  let name := join (lit "-") (map (translate table) words) in
  EvPost names_url name ∈ events
  /\ last events
     = Some (EvSend (lit ":ok_hand: Added `" ++ name
                     ++ lit "` to the names list.")).
Proof.
  intros E name.
  destruct (convert_each isalnum words) as [names|e] eqn:Ec.
  - rewrite (add_command_converted ctx words names answer Ec) in E.
    apply convert_each_Ok in Ec as [_ ->].
    destruct answer as [[]|status]; [|discriminate E].
    injection E as <-. split; [left | reflexivity].
  - rewrite (add_command_rejected ctx words answer e Ec) in E. discriminate E.
Qed.

End CommandFacts.


(** C9, refuted as stated: for the words [FOO] and [BAR] the raw joined
    name is [FOO-BAR], but the command succeeds without ever sending a
    confirmation with that name; what it echoes are the sans-serif
    letters it stored. *)
Lemma add_confirmation_not_raw :
  let ctx := {| author_name := lit "mod"; author_discriminator := lit "0001" |} in
  let run := add_command ascii_isalnum ctx [lit "FOO"; lit "BAR"] (Ok tt) in
  run.2 = Ok tt
  /\ (EvSend (lit ":ok_hand: Added `"
              ++ join (lit "-") [lit "FOO"; lit "BAR"]
              ++ lit "` to the names list.") ∉ run.1)
  /\ last run.1
     = Some (EvSend (lit ":ok_hand: Added `"
                     ++ [0x1D5A5; 0x1D5AE; 0x1D5AE; 45; 0x1D5A1; 0x1D5A0; 0x1D5B1]
                     ++ lit "` to the names list.")).
Proof.
  cbv zeta. split; [vm_compute; reflexivity|]. split; [|vm_compute; reflexivity].
  intros H. vm_compute in H.
  repeat (apply elem_of_cons in H as [H|H]; [discriminate H|]).
  by apply elem_of_nil in H.
Qed.

Lemma add_command_confirms_stored_name_witness :
  let ctx := {| author_name := lit "mod"; author_discriminator := lit "0001" |} in
  let events := (add_command ascii_isalnum ctx [lit "FOO"; lit "BAR"] (Ok tt)).1 in
  let name := join (lit "-") (map (translate table) [lit "FOO"; lit "BAR"]) in
  EvPost names_url name ∈ events
  /\ last events
     = Some (EvSend (lit ":ok_hand: Added `" ++ name
                     ++ lit "` to the names list.")).
Proof.
  intros ctx events name.
  apply (add_command_confirms_stored_name ascii_isalnum ctx
           [lit "FOO"; lit "BAR"] (Ok tt) events).
  vm_compute. reflexivity.
Defined.

(** ** Order of strings and sorting *)

Lemma str_ltb_irrefl (x : str) : str_ltb x x = false.
Proof.
  induction x as [|c x IH]; [reflexivity|]. cbn [str_ltb].
  rewrite N.ltb_irrefl, N.eqb_refl, IH. reflexivity.
Qed.

Lemma str_ltb_trichotomy (x y : str) :
  str_ltb x y = true \/ x = y \/ str_ltb y x = true.
Proof.
  revert y. induction x as [|c x IH]; intros [|d y]; cbn [str_ltb]; auto.
  destruct (N.lt_trichotomy c d) as [H|[->|H]].
  - left. apply orb_true_iff. left. by apply N.ltb_lt.
  - rewrite N.ltb_irrefl, N.eqb_refl. cbn [orb andb].
    destruct (IH y) as [H|[->|H]]; auto.
  - right. right. apply orb_true_iff. left. by apply N.ltb_lt.
Qed.

Lemma str_ltb_trans (x y z : str) :
  str_ltb x y = true -> str_ltb y z = true -> str_ltb x z = true.
Proof.
  revert y z. induction x as [|c x IH]; intros [|d y] [|e z]; cbn [str_ltb];
    try discriminate; auto.
  rewrite !orb_true_iff, !andb_true_iff, !N.ltb_lt, !N.eqb_eq.
  intros [H1|[-> H1]] [H2|[-> H2]].
  - left. lia.
  - by left.
  - by left.
  - right. split; [reflexivity|]. by eapply IH.
Qed.

Lemma str_ltb_asym (x y : str) : str_ltb x y = true -> str_ltb y x = false.
Proof.
  intros H. destruct (str_ltb y x) eqn:E; [|reflexivity].
  pose proof (str_ltb_trans x y x H E) as C. by rewrite str_ltb_irrefl in C.
Qed.

#[local] Instance str_leb_total : Total (leb_rel str_leb).
Proof.
  intros x y. unfold leb_rel, str_leb.
  destruct (str_ltb y x) eqn:E; [right | left; exact I].
  rewrite (str_ltb_asym y x E). exact I.
Qed.

#[local] Instance str_leb_trans : Transitive (leb_rel str_leb).
Proof.
  intros x y z. unfold leb_rel, str_leb.
  destruct (str_ltb y x) eqn:E1; [contradiction|].
  destruct (str_ltb z y) eqn:E2; [contradiction|]. intros _ _.
  destruct (str_ltb z x) eqn:E3; [|exact I]. exfalso.
  destruct (str_ltb_trichotomy x y) as [H|[->|H]]; [|congruence..].
  by rewrite (str_ltb_trans z x y E3 H) in E2.
Qed.

Lemma bullet_inj (x y : str) : bullet x = bullet y -> x = y.
Proof. unfold bullet. apply app_inv_head. Qed.

(** [sorted] returns the same strings in ascending order. *)
Lemma sorted_Permutation (l : list str) : sorted l ≡ₚ l.
Proof. apply merge_sort_Permutation. Qed.

Lemma sorted_StronglySorted (l : list str) :
  StronglySorted (leb_rel str_leb) (sorted l).
Proof. apply StronglySorted_merge_sort; apply _. Qed.

(** Without repeated strings the order is strict. *)
Lemma sorted_strict (l : list str) :
  NoDup l -> StronglySorted (fun x y => str_ltb x y = true) (sorted l).
Proof.
  intros Hnd. rewrite <- (sorted_Permutation l) in Hnd.
  pose proof (sorted_StronglySorted l) as Hs.
  induction Hs as [|x l' Hs IH Hx]; [constructor|].
  apply NoDup_cons in Hnd as [Hx' Hnd]. constructor; [by apply IH|].
  rewrite Forall_forall in Hx |- *. intros y Hy.
  specialize (Hx y Hy). unfold leb_rel, str_leb in Hx.
  destruct (str_ltb_trichotomy x y) as [H|[->|H]]; [exact H|contradiction|].
  rewrite H in Hx. contradiction.
Qed.

(** ** The lines of a search *)

Lemma search_lines_elem (query : str) (names : list str) (line : str) :
  line ∈ search_lines query names <->
  exists name, line = bullet name
    /\ ((name ∈ names /\ contains name query = true)
        \/ name ∈ Difflib.get_close_matches query names 10 (7 # 10)).
Proof.
  unfold search_lines. rewrite sorted_Permutation, list_elem_of_In, in_map_iff.
  split.
  - intros (name & <- & Hin). exists name. split; [reflexivity|].
    apply list_elem_of_In, elem_of_elements, elem_of_union in Hin.
    destruct Hin as [Hin|Hin]; apply elem_of_list_to_set in Hin.
    + left. apply list_elem_of_In, filter_In in Hin as [Hin Hc].
      split; [by apply list_elem_of_In | exact Hc].
    + by right.
  - intros (name & -> & H). exists name. split; [reflexivity|].
    apply list_elem_of_In, elem_of_elements, elem_of_union.
    destruct H as [[Hin Hc]|Hin]; [left | right]; apply elem_of_list_to_set.
    + apply list_elem_of_In, filter_In. split; [by apply list_elem_of_In | exact Hc].
    + exact Hin.
Qed.

Lemma search_lines_strict (query : str) (names : list str) :
  StronglySorted (fun x y => str_ltb x y = true) (search_lines query names).
Proof.
  unfold search_lines. apply sorted_strict.
  assert (Inj (=) (=) bullet) by (intros x y; apply bullet_inj).
  apply (NoDup_fmap_2 bullet), NoDup_elements.
Qed.

(** ** The matcher *)

Module DifflibFacts.
Import Difflib DifflibInv.
Local Open Scope nat_scope.
#[local] Set Warnings "-clear-no-such-hyp".

Section Matcher.

Variables a b : str.

(** [b2j] lists real positions: every index stored for [x] holds [x]. *)
Lemma chain_b_indices_lookup (s : str) (x : N) (js : list nat) (j : nat) :
  chain_b_indices s !! x = Some js -> j ∈ js -> s !! j = Some x.
Proof.
  unfold chain_b_indices. revert x js j.
  induction s as [|y s IH] using rev_ind; intros x js j.
  - cbn. rewrite lookup_empty. discriminate.
  - rewrite imap_app, foldl_app. cbn [imap foldl fst snd].
    rewrite Nat.add_0_r.
    destruct (decide (y = x)) as [->|Hne].
    + rewrite lookup_insert_eq. intros [= <-] [Hj|Hj]%elem_of_app.
      * destruct (foldl _ ∅ (imap pair s) !! x) as [js0|] eqn:E.
        -- cbn in Hj. rewrite lookup_app_l; [by eapply IH|].
           eapply lookup_lt_Some, IH; eauto.
        -- cbn in Hj. by apply elem_of_nil in Hj.
      * apply list_elem_of_singleton in Hj as ->.
        rewrite lookup_app_r, Nat.sub_diag by lia. reflexivity.
    + rewrite lookup_insert_ne by exact Hne. intros E Hj.
      rewrite lookup_app_l; [by eapply IH|].
      eapply lookup_lt_Some, IH; eauto.
Qed.

Lemma b2j_lookup (x : N) (js : list nat) (j : nat) :
  b2j b !! x = Some js -> j ∈ js -> b !! j = Some x.
Proof.
  unfold b2j. destruct (200 <=? length b).
  - intros [E _]%map_lookup_filter_Some. by apply chain_b_indices_lookup.
  - apply chain_b_indices_lookup.
Qed.

Lemma matches_at_0 (i j : nat) : matches_at a b i j 0.
Proof. intros t Ht. lia. Qed.

Lemma matches_at_snoc (i j k : nat) (x : N) :
  matches_at a b i j k ->
  a !! (i + k) = Some x -> b !! (j + k) = Some x ->
  matches_at a b i j (S k).
Proof.
  intros H Ha Hb t Ht. destruct (decide (t = k)) as [->|Hne]; [eauto|].
  apply H. lia.
Qed.

Lemma matches_at_cons (i j k : nat) (x : N) :
  matches_at a b (S i) (S j) k ->
  a !! i = Some x -> b !! j = Some x ->
  matches_at a b i j (S k).
Proof.
  intros H Ha Hb [|t] Ht.
  - rewrite !Nat.add_0_r. eauto.
  - destruct (H t) as (y & Hy1 & Hy2); [lia|].
    exists y. by rewrite <- !Nat.add_succ_comm.
Qed.

Lemma same_element_true (i j : nat) :
  same_element a b i j = true ->
  exists x, a !! i = Some x /\ b !! j = Some x.
Proof.
  unfold same_element. destruct (a !! i) as [x|], (b !! j) as [y|];
    try discriminate. intros ->%N.eqb_eq. eauto.
Qed.

Lemma block_ok_wider (alo ahi ahi' blo bhi : nat) (m : Match) :
  ahi <= ahi' -> block_ok a b alo ahi blo bhi m ->
  block_ok a b alo ahi' blo bhi m.
Proof. destruct m as [[i j] k]. unfold block_ok. intros ? [? ?]. split; [lia|done]. Qed.

(** The inner loop keeps the new row and the best block right. *)
Lemma scan_row_ok (alo blo bhi i : nat) (x : N) (j2len : gmap nat nat)
    (js : list nat) (newj2len : gmap nat nat) (best : Match) :
  alo <= i -> a !! i = Some x ->
  Forall (fun j => b !! j = Some x) js ->
  row_ok a b alo blo bhi i j2len ->
  row_ok a b alo blo bhi (S i) newj2len ->
  block_ok a b alo (S i) blo bhi best ->
  let '(m, best') := scan_row blo bhi i j2len js newj2len best in
  row_ok a b alo blo bhi (S i) m /\ block_ok a b alo (S i) blo bhi best'.
Proof.
  intros Hi Ha Hjs Hprev. revert newj2len best.
  induction Hjs as [|j js Hj Hjs IH]; intros newj2len best Hnew Hbest;
    cbn [scan_row]; [done|].
  destruct (Nat.ltb_spec j blo) as [Hlo|Hlo]; [by apply IH|].
  destruct (Nat.leb_spec bhi j) as [Hhi|Hhi]; [done|].
  set (k0 := match j with 0 => 0 | S j' => default 0 (j2len !! j') end).
  assert (Hrun : (k0 <= i - alo /\ k0 <= j - blo)
                 /\ matches_at a b (i - k0) (j - k0) k0).
  { subst k0. destruct j as [|j']; [split; [lia | apply matches_at_0]|].
    destruct (j2len !! j') as [k|] eqn:E; cbn [default from_option id];
      [|split; [lia | apply matches_at_0]].
    destruct (Hprev j' k E) as [Hb Hm]. split; [lia|].
    replace (S j' - k) with (j' + 1 - k) by lia. exact Hm. }
  destruct Hrun as [Hb Hm].
  assert (Hm' : matches_at a b (i + 1 - S k0) (j + 1 - S k0) (S k0)).
  { replace (i + 1 - S k0) with (i - k0) by lia.
    replace (j + 1 - S k0) with (j - k0) by lia.
    apply (matches_at_snoc _ _ _ x); [exact Hm| |].
    - replace (i - k0 + k0) with i by lia. exact Ha.
    - replace (j - k0 + k0) with j by lia. exact Hj. }
  apply IH.
  - intros j1 k1. destruct (decide (j = j1)) as [<-|Hne].
    + rewrite lookup_insert_eq. intros [= <-]. split; [lia|].
      replace (S i - S k0) with (i + 1 - S k0) by lia. exact Hm'.
    + rewrite lookup_insert_ne by exact Hne. apply Hnew.
  - destruct (Nat.ltb_spec (size_of best) (S k0)); [|exact Hbest].
    split; [lia | exact Hm'].
Qed.

Lemma row_ok_empty (alo blo bhi i : nat) : row_ok a b alo blo bhi i ∅.
Proof. intros j k. rewrite lookup_empty. discriminate. Qed.

Lemma scan_rows_step_ok (alo blo bhi i : nat) (st : gmap nat nat * Match) :
  alo <= i ->
  row_ok a b alo blo bhi i st.1 -> block_ok a b alo i blo bhi st.2 ->
  row_ok a b alo blo bhi (S i) (scan_rows_step a b blo bhi st i).1
  /\ block_ok a b alo (S i) blo bhi (scan_rows_step a b blo bhi st i).2.
Proof.
  intros Hi Hrow Hbest. unfold scan_rows_step.
  apply (block_ok_wider _ _ (S i)) in Hbest; [|lia].
  destruct (a !! i) as [x|] eqn:Ha.
  - pose proof (scan_row_ok alo blo bhi i x st.1
                  (default [] (b2j b !! x)) ∅ st.2 Hi Ha) as H.
    destruct (scan_row blo bhi i st.1 (default [] (b2j b !! x)) ∅ st.2).
    apply H; [|exact Hrow|apply row_ok_empty|exact Hbest].
    apply Forall_forall. intros j Hj.
    destruct (b2j b !! x) as [js|] eqn:E; cbn in Hj.
    + by eapply b2j_lookup.
    + by apply elem_of_nil in Hj.
  - cbn [scan_row fst snd]. split; [apply row_ok_empty | exact Hbest].
Qed.

Lemma scan_rows_ok (alo blo bhi n : nat) :
  blo <= bhi ->
  let st := foldl (scan_rows_step a b blo bhi) (∅, (alo, blo, 0))
                  (seq alo n) in
  row_ok a b alo blo bhi (alo + n) st.1
  /\ block_ok a b alo (alo + n) blo bhi st.2.
Proof.
  intros Hb. induction n as [|n IH]; cbv zeta.
  - cbn [seq foldl fst snd]. split; [apply row_ok_empty|].
    split; [lia | apply matches_at_0].
  - rewrite seq_S, foldl_app. cbn [foldl].
    replace (alo + S n) with (S (alo + n)) by lia.
    destruct IH as [IH1 IH2]. apply scan_rows_step_ok; [lia|done..].
Qed.

Lemma extend_left_ok (alo ahi blo bhi besti bestj bestsize : nat) :
  block_ok a b alo ahi blo bhi (besti, bestj, bestsize) ->
  block_ok a b alo ahi blo bhi (extend_left a b alo blo besti bestj bestsize).
Proof.
  revert bestj bestsize. induction besti as [|i' IH]; intros bestj bestsize H;
    [exact H|].
  cbn [extend_left]. destruct bestj as [|j']; [exact H|].
  destruct (Nat.leb_spec alo i'); cbn [andb]; [|exact H].
  destruct (Nat.leb_spec blo j'); cbn [andb]; [|exact H].
  destruct (same_element a b i' j') eqn:E; [|exact H].
  apply same_element_true in E as (x & Ha & Hb'). apply IH.
  destruct H as [Hb Hm]. split; [lia|]. by apply (matches_at_cons _ _ _ x).
Qed.

Lemma extend_right_ok (steps alo ahi blo bhi besti bestj bestsize : nat) :
  block_ok a b alo ahi blo bhi (besti, bestj, bestsize) ->
  block_ok a b alo ahi blo bhi
           (extend_right a b steps ahi bhi besti bestj bestsize).
Proof.
  revert bestsize. induction steps as [|steps IH]; intros bestsize H;
    [exact H|].
  cbn [extend_right].
  destruct (Nat.ltb_spec (besti + bestsize) ahi); cbn [andb]; [|exact H].
  destruct (Nat.ltb_spec (bestj + bestsize) bhi); cbn [andb]; [|exact H].
  destruct (same_element a b (besti + bestsize) (bestj + bestsize)) eqn:E;
    [|exact H].
  apply same_element_true in E as (x & Ha & Hb'). apply IH.
  destruct H as [Hb Hm]. split; [lia|]. by apply (matches_at_snoc _ _ _ x).
Qed.

(** What [find_longest_match] returns lies inside the region and its
    two sides are equal. *)
Lemma find_longest_match_ok (alo ahi blo bhi : nat) :
  alo <= ahi -> blo <= bhi ->
  block_ok a b alo ahi blo bhi (find_longest_match a b alo ahi blo bhi).
Proof.
  intros Ha Hb. unfold find_longest_match.
  pose proof (scan_rows_ok alo blo bhi (ahi - alo) Hb) as [_ H].
  cbv zeta in H. replace (alo + (ahi - alo)) with ahi in H by lia.
  destruct (foldl _ _ _) as [m [[besti bestj] bestsize]]. cbn [snd] in H.
  apply (extend_left_ok alo ahi blo bhi) in H.
  destruct (extend_left a b alo blo besti bestj bestsize) as [[i j] k].
  by apply extend_right_ok.
Qed.

(** *** Slices and what they share *)

Lemma slice_split (s : str) (lo mid hi : nat) :
  lo <= mid -> mid <= hi ->
  slice s lo hi = slice s lo mid ++ slice s mid hi.
Proof.
  intros H1 H2. unfold slice.
  replace (hi - lo) with ((mid - lo) + (hi - mid)) by lia.
  rewrite <- take_take_drop, drop_drop. do 3 f_equal. lia.
Qed.

Lemma slice_all (s : str) : slice s 0 (length s) = s.
Proof. unfold slice. rewrite drop_0, Nat.sub_0_r. by apply take_ge. Qed.

Lemma slice_matches (i j k : nat) :
  matches_at a b i j k ->
  slice a i (i + k) = slice b j (j + k) /\ length (slice a i (i + k)) = k.
Proof.
  intros H. unfold slice.
  replace (i + k - i) with k by lia. replace (j + k - j) with k by lia.
  split.
  - apply list_eq. intros t. destruct (decide (t < k)) as [Ht|Ht].
    + rewrite !lookup_take_lt, !lookup_drop by exact Ht.
      destruct (H t Ht) as (x & -> & ->). reflexivity.
    + rewrite !lookup_take_ge by lia. reflexivity.
  - rewrite length_take, length_drop.
    destruct k as [|k]; [reflexivity|].
    destruct (H k) as (x & Hx & _); [lia|].
    apply lookup_lt_Some in Hx. lia.
Qed.

Lemma size_list_to_set_disj (s : str) :
  size (list_to_set_disj s : gmultiset N) = length s.
Proof.
  induction s as [|x s IH]; [reflexivity|].
  rewrite list_to_set_disj_cons, gmultiset_size_disj_union,
    gmultiset_size_singleton, IH. reflexivity.
Qed.

(** A block and what its two sides share add up to no more than the
    region shares. *)
Lemma shared_split (alo ahi blo bhi i j k : nat) :
  block_ok a b alo ahi blo bhi (i, j, k) ->
  k + shared a b (alo, i, blo, j) + shared a b (i + k, ahi, j + k, bhi)
  <= shared a b (alo, ahi, blo, bhi).
Proof.
  intros [Hb Hm]. apply slice_matches in Hm as [Hm Hk]. unfold shared.
  rewrite (slice_split a alo i ahi), (slice_split a i (i + k) ahi) by lia.
  rewrite (slice_split b blo j bhi), (slice_split b j (j + k) bhi) by lia.
  rewrite <- Hm, !list_to_set_disj_app.
  set (X1 := list_to_set_disj (slice a alo i) : gmultiset N).
  set (X2 := list_to_set_disj (slice a (i + k) ahi) : gmultiset N).
  set (Y1 := list_to_set_disj (slice b blo j) : gmultiset N).
  set (Y2 := list_to_set_disj (slice b (j + k) bhi) : gmultiset N).
  set (B := list_to_set_disj (slice a i (i + k)) : gmultiset N).
  assert (HB : size B = k) by (subst B; by rewrite size_list_to_set_disj).
  assert (Hsub : (X1 ∩ Y1) ⊎ B ⊎ (X2 ∩ Y2)
                 ⊆ (X1 ⊎ (B ⊎ X2)) ∩ (Y1 ⊎ (B ⊎ Y2))) by multiset_solver.
  apply gmultiset_subseteq_size in Hsub.
  rewrite !gmultiset_size_disj_union in Hsub. lia.
Qed.

(** *** The queue loop *)

Lemma turns_positive (r : region) : 1 <= turns r.
Proof. destruct r as [[[alo ahi] blo] bhi]. cbn. lia. Qed.

(** One turn of the loop: the regions it puts on the queue are well
    formed, need fewer turns and share no more than is left. *)
Lemma matching_loop_push (alo ahi blo bhi i j k : nat)
    (queue : list region) :
  block_ok a b alo ahi blo bhi (i, j, S k) ->
  Forall region_ok queue ->
  let queue1 := if (alo <? i) && (blo <? j)
                then (alo, i, blo, j) :: queue else queue in
  let queue2 := if (i + S k <? ahi) && (j + S k <? bhi)
                then (i + S k, ahi, j + S k, bhi) :: queue1 else queue1 in
  Forall region_ok queue2
  /\ sum_list_with turns queue2 + 1
     <= turns (alo, ahi, blo, bhi) + sum_list_with turns queue
  /\ S k + sum_list_with (shared a b) queue2
     <= shared a b (alo, ahi, blo, bhi) + sum_list_with (shared a b) queue.
Proof.
  intros Hblock Hq. pose proof (shared_split _ _ _ _ _ _ _ Hblock) as Hs.
  destruct Hblock as [Hb _]. cbv zeta.
  destruct (alo <? i) eqn:E1, (blo <? j) eqn:E2,
    (i + S k <? ahi) eqn:E3, (j + S k <? bhi) eqn:E4;
    try apply Nat.ltb_lt in E1; try apply Nat.ltb_lt in E2;
    try apply Nat.ltb_lt in E3; try apply Nat.ltb_lt in E4;
    cbn [andb sum_list_with turns];
    (split; [repeat (apply Forall_cons; split; [cbn; lia|]); exact Hq|]);
    split; lia.
Qed.

(** With fuel for the turns that are left, the loop does not depend on
    the fuel: it has emptied the queue. *)
Lemma matching_loop_fuel (fuel fuel' : nat) (queue : list region)
    (blocks : list Match) :
  Forall region_ok queue ->
  sum_list_with turns queue <= fuel ->
  sum_list_with turns queue <= fuel' ->
  matching_loop a b fuel queue blocks = matching_loop a b fuel' queue blocks.
Proof.
  revert fuel' queue blocks.
  induction fuel as [|fuel IH]; intros fuel' queue blocks Hq H1 H2.
  - destruct queue as [|r queue]; [by destruct fuel'|].
    pose proof (turns_positive r). cbn in H1. lia.
  - destruct queue as [|[[[alo ahi] blo] bhi] queue]; [by destruct fuel'|].
    destruct fuel' as [|fuel']; [cbn in H2; lia|].
    apply Forall_cons in Hq as [[Ha Hb] Hq].
    pose proof (find_longest_match_ok alo ahi blo bhi Ha Hb) as Hblock.
    cbn [matching_loop].
    destruct (find_longest_match a b alo ahi blo bhi) as [[i j] [|k]].
    + cbn in H1, H2. apply IH; [exact Hq|lia..].
    + destruct (matching_loop_push _ _ _ _ _ _ _ queue Hblock Hq)
        as (Hq' & Ht & _).
      cbn [sum_list_with turns] in H1, H2, Ht.
      apply IH; [exact Hq'|lia..].
Qed.

(** The fuel that [get_matching_blocks] gives the loop is enough: more
    fuel finds the same blocks. *)
Lemma get_matching_blocks_fuel (more : nat) :
  matching_loop a b (2 * length a + 1 + more)
                [(0, length a, 0, length b)] []
  = matching_loop a b (2 * length a + 1) [(0, length a, 0, length b)] [].
Proof.
  apply matching_loop_fuel.
  - repeat constructor; cbn; lia.
  - cbn [sum_list_with turns]. lia.
  - cbn [sum_list_with turns]. lia.
Qed.

(** The blocks that the loop finds are together no longer than what
    the regions on the queue share. *)
Lemma matching_loop_shared (fuel : nat) (queue : list region)
    (blocks : list Match) :
  Forall region_ok queue ->
  sum_list_with size_of (matching_loop a b fuel queue blocks)
  <= sum_list_with size_of blocks + sum_list_with (shared a b) queue.
Proof.
  revert queue blocks.
  induction fuel as [|fuel IH]; intros queue blocks Hq; [cbn; lia|].
  destruct queue as [|[[[alo ahi] blo] bhi] queue]; [cbn; lia|].
  apply Forall_cons in Hq as [[Ha Hb] Hq].
  pose proof (find_longest_match_ok alo ahi blo bhi Ha Hb) as Hblock.
  cbn [matching_loop].
  destruct (find_longest_match a b alo ahi blo bhi) as [[i j] [|k]].
  - etransitivity; [apply IH, Hq|]. cbn [sum_list_with]. lia.
  - destruct (matching_loop_push _ _ _ _ _ _ _ queue Hblock Hq)
      as (Hq' & _ & Hs).
    etransitivity; [apply IH, Hq'|].
    rewrite sum_list_with_app. cbn [sum_list_with size_of snd] in *. lia.
Qed.

(** *** From the blocks to the ratio *)

Lemma collapse_size (blocks : list Match) (i1 j1 k1 : nat) :
  sum_list_with size_of (collapse blocks i1 j1 k1)
  = k1 + sum_list_with size_of blocks.
Proof.
  revert i1 j1 k1.
  induction blocks as [|[[i2 j2] k2] blocks IH]; intros i1 j1 k1;
    cbn [collapse].
  - destruct k1; cbn; lia.
  - destruct ((i1 + k1 =? i2) && (j1 + k1 =? j2)) eqn:E.
    + rewrite IH. cbn. lia.
    + destruct k1; cbn [sum_list_with]; rewrite IH; cbn; lia.
Qed.

Lemma sum_list_map {A} (f : A -> nat) (l : list A) :
  sum_list (map f l) = sum_list_with f l.
Proof. induction l as [|x l IH]; cbn; [reflexivity | by rewrite IH]. Qed.

(** The matches that [ratio()] counts are those of the queue loop. *)
Lemma get_matching_blocks_size :
  sum_list (map size_of (get_matching_blocks a b))
  = sum_list_with size_of
      (matching_loop a b (2 * length a + 1)
                     [(0, length a, 0, length b)] []).
Proof.
  unfold get_matching_blocks. cbv zeta.
  rewrite sum_list_map, sum_list_with_app, collapse_size.
  rewrite merge_sort_Permutation. cbn. lia.
Qed.

(** No more matches than the two sequences share. *)
Lemma matches_le_shared :
  sum_list (map size_of (get_matching_blocks a b))
  <= size (list_to_set_disj a ∩ list_to_set_disj b : gmultiset N).
Proof.
  rewrite get_matching_blocks_size.
  etransitivity; [apply matching_loop_shared|].
  - repeat constructor; cbn; lia.
  - cbn [sum_list_with shared]. rewrite !slice_all. lia.
Qed.

(** *** quick_ratio *)

Lemma fullbcount_lookup (s : str) (m : gmap N Z) (e : N) :
  default 0%Z
    (foldl (fun m elt => <[elt := (default 0 (m !! elt) + 1)%Z]> m) m s !! e)
  = (default 0 (m !! e)
     + Z.of_nat (multiplicity e (list_to_set_disj s : gmultiset N)))%Z.
Proof.
  revert m. induction s as [|x s IH]; intros m.
  - cbn [foldl]. rewrite list_to_set_disj_nil, multiplicity_empty. lia.
  - cbn [foldl]. rewrite IH, list_to_set_disj_cons, multiplicity_disj_union.
    destruct (decide (x = e)) as [->|Hne].
    + rewrite lookup_insert_eq, multiplicity_singleton_eq. cbn. lia.
    + rewrite lookup_insert_ne, multiplicity_singleton_ne by congruence. lia.
Qed.

Lemma fullbcount_multiplicity (e : N) :
  default 0%Z (fullbcount b !! e)
  = Z.of_nat (multiplicity e (list_to_set_disj b : gmultiset N)).
Proof.
  unfold fullbcount. rewrite fullbcount_lookup, lookup_empty. cbn. lia.
Qed.

Lemma intersection_add_more (X Y : gmultiset N) (e : N) :
  multiplicity e X < multiplicity e Y ->
  ({[+ e +]} ⊎ X) ∩ Y = {[+ e +]} ⊎ (X ∩ Y).
Proof.
  intros H. apply gmultiset_eq. intros x.
  rewrite !multiplicity_intersection, !multiplicity_disj_union,
    !multiplicity_intersection.
  destruct (decide (x = e)) as [->|Hne].
  - rewrite multiplicity_singleton_eq. lia.
  - rewrite multiplicity_singleton_ne by exact Hne. lia.
Qed.

Lemma intersection_add_full (X Y : gmultiset N) (e : N) :
  multiplicity e Y <= multiplicity e X ->
  ({[+ e +]} ⊎ X) ∩ Y = X ∩ Y.
Proof.
  intros H. apply gmultiset_eq. intros x.
  rewrite !multiplicity_intersection, !multiplicity_disj_union.
  destruct (decide (x = e)) as [->|Hne].
  - rewrite multiplicity_singleton_eq. lia.
  - rewrite multiplicity_singleton_ne by exact Hne. lia.
Qed.

Lemma quick_step_ok (seen : gmultiset N) (st : gmap N Z * nat) (elt : N) :
  quick_ok b seen st -> quick_ok b ({[+ elt +]} ⊎ seen) (quick_step b st elt).
Proof.
  destruct st as [avail matches]. intros [Hav Hm]. cbn [fst snd] in *.
  unfold quick_step.
  set (numb := match avail !! elt with
               | Some n => n
               | None => default 0%Z (fullbcount b !! elt)
               end).
  assert (Hn : numb = (Z.of_nat (multiplicity elt (list_to_set_disj b : gmultiset N))
                       - Z.of_nat (multiplicity elt seen))%Z).
  { subst numb. specialize (Hav elt). destruct (avail !! elt) as [n|].
    - exact Hav.
    - rewrite fullbcount_multiplicity, Hav. lia. }
  split; cbn [fst snd].
  - intros e. rewrite multiplicity_disj_union.
    destruct (decide (elt = e)) as [<-|Hne].
    + rewrite lookup_insert_eq, multiplicity_singleton_eq. lia.
    + rewrite lookup_insert_ne, multiplicity_singleton_ne by congruence.
      specialize (Hav e). destruct (avail !! e); lia.
  - destruct (Z.ltb_spec 0 numb).
    + rewrite intersection_add_more by lia.
      rewrite gmultiset_size_disj_union, gmultiset_size_singleton. lia.
    + rewrite intersection_add_full by lia. exact Hm.
Qed.

Lemma quick_loop_ok (s : str) (seen : gmultiset N) (st : gmap N Z * nat) :
  quick_ok b seen st ->
  quick_ok b (list_to_set_disj s ⊎ seen) (foldl (quick_step b) st s).
Proof.
  revert seen st. induction s as [|x s IH]; intros seen st H; cbn [foldl].
  - rewrite list_to_set_disj_nil, (left_id_L ∅ (⊎)). exact H.
  - rewrite list_to_set_disj_cons.
    replace ({[+ x +]} ⊎ list_to_set_disj s ⊎ seen)
      with (list_to_set_disj s ⊎ ({[+ x +]} ⊎ seen)) by multiset_solver.
    apply IH, quick_step_ok, H.
Qed.

(** [quick_ratio] counts what the two sequences share. *)
Lemma quick_matches :
  (foldl (quick_step b) (∅, 0) a).2
  = size (list_to_set_disj a ∩ list_to_set_disj b : gmultiset N).
Proof.
  destruct (quick_loop_ok a ∅ (∅, 0)) as [_ H].
  - split; cbn [fst snd].
    + intros e. rewrite lookup_empty. apply multiplicity_empty.
    + rewrite (left_absorb_L ∅ (∩)). reflexivity.
  - rewrite H, (right_id_L ∅ (⊎)). reflexivity.
Qed.

(** *** The three ratios *)

Lemma calculate_ratio_mono (m1 m2 len : nat) :
  m1 <= m2 -> (calculate_ratio m1 len <= calculate_ratio m2 len)%Q.
Proof.
  intros H. unfold calculate_ratio. destruct len; [apply Qle_refl|].
  unfold Qle. cbn [Qnum Qden]. apply Z.mul_le_mono_nonneg_r; lia.
Qed.

Lemma ratio_le_quick_ratio : (ratio a b <= quick_ratio a b)%Q.
Proof.
  unfold ratio, quick_ratio. cbv zeta. apply calculate_ratio_mono.
  rewrite quick_matches. apply matches_le_shared.
Qed.

Lemma quick_ratio_le_real_quick_ratio :
  (quick_ratio a b <= real_quick_ratio a b)%Q.
Proof.
  unfold quick_ratio, real_quick_ratio. cbv zeta. apply calculate_ratio_mono.
  rewrite quick_matches.
  pose proof (gmultiset_subseteq_size
                (list_to_set_disj a ∩ list_to_set_disj b)
                (list_to_set_disj a : gmultiset N)) as H1.
  pose proof (gmultiset_subseteq_size
                (list_to_set_disj a ∩ list_to_set_disj b)
                (list_to_set_disj b : gmultiset N)) as H2.
  rewrite size_list_to_set_disj in H1, H2.
  specialize (H1 ltac:(multiset_solver)). specialize (H2 ltac:(multiset_solver)).
  lia.
Qed.

End Matcher.

(** The cutoff test of [get_close_matches] comes down to its last
    conjunct: the two quick ratios are upper bounds of the ratio. *)
Lemma good_enough_ratio (word x : str) (cutoff : Q) :
  good_enough word x cutoff = Qle_bool cutoff (ratio x word).
Proof.
  unfold good_enough.
  destruct (Qle_bool cutoff (ratio x word)) eqn:E;
    [|by rewrite andb_false_r].
  apply Qle_bool_iff in E.
  pose proof (ratio_le_quick_ratio x word) as H1.
  pose proof (quick_ratio_le_real_quick_ratio x word) as H2.
  assert (E1 : Qle_bool cutoff (quick_ratio x word) = true)
    by (apply Qle_bool_iff; eapply Qle_trans; eauto).
  assert (E2 : Qle_bool cutoff (real_quick_ratio x word) = true)
    by (apply Qle_bool_iff; repeat (eapply Qle_trans; eauto)).
  rewrite E1, E2. reflexivity.
Qed.

End DifflibFacts.

(** ** Ranking of the close matches *)

Module RankingFacts.
Import Difflib DifflibFacts.

Lemma scored_geb_spec (x y : Q * str) :
  scored_geb x y = true <->
  (y.1 < x.1)%Q \/ ((x.1 == y.1)%Q /\ str_leb y.2 x.2 = true).
Proof.
  unfold scored_geb, scored_ltb, str_leb.
  destruct (Qcompare_spec x.1 y.1) as [H|H|H].
  - split; [intros E; right; by split | intros [C|[_ E]]; [|exact E]].
    rewrite H in C. by apply Qlt_irrefl in C.
  - split; [discriminate | intros [C|[C _]]].
    + exfalso. apply (Qlt_irrefl x.1). by eapply Qlt_trans.
    + by apply Qlt_not_eq in H.
  - split; [intros _; by left | reflexivity].
Qed.

#[local] Instance scored_geb_total : Total (leb_rel scored_geb).
Proof.
  intros x y. unfold leb_rel. rewrite !Is_true_true, !scored_geb_spec.
  destruct (Q_dec x.1 y.1) as [[H|H]|H]; [right; by left | left; by left|].
  destruct (total (leb_rel str_leb) x.2 y.2) as [E|E];
    apply Is_true_true in E; [right | left]; right; split;
    [symmetry; exact H | exact E | exact H | exact E].
Qed.

#[local] Instance scored_geb_trans : Transitive (leb_rel scored_geb).
Proof.
  intros x y z. unfold leb_rel. rewrite !Is_true_true, !scored_geb_spec.
  intros [H1|[H1 E1]] [H2|[H2 E2]].
  - left. by eapply Qlt_trans.
  - left. by rewrite <- H2.
  - left. by rewrite H1.
  - right. split; [by rewrite H1|].
    apply Is_true_true.
    apply (transitivity (R := leb_rel str_leb) (y := y.2));
      by apply Is_true_true.
Qed.

Lemma ranked_scores (word : str) (l : list (Q * str)) :
  Forall (fun p => p.1 = ratio p.2 word) l ->
  StronglySorted (leb_rel scored_geb) l ->
  StronglySorted (ranks_before word) (map snd l).
Proof.
  intros F S. induction S as [|p l S IH Hp]; [constructor|].
  apply Forall_cons in F as [Ep F]. cbn [map].
  constructor; [by apply IH|].
  apply Forall_forall. intros y (q & <- & Hq%list_elem_of_In)%list_elem_of_In%in_map_iff.
  rewrite Forall_forall in Hp, F. specialize (Hp q Hq). specialize (F q Hq).
  apply Is_true_true, scored_geb_spec in Hp.
  unfold ranks_before. rewrite <- Ep, <- F. exact Hp.
Qed.

(** The close matches are the first [n] of the names that reach the
    cutoff, ranked by similarity and then by name, greatest first. *)
Lemma get_close_matches_ranked (word : str) (names : list str) (n : nat)
    (cutoff : Q) :
  let candidates :=
    List.filter (fun x => Qle_bool cutoff (ratio x word)) names in
  exists rest,
    get_close_matches word names n cutoff ++ rest ≡ₚ candidates
    /\ StronglySorted (ranks_before word)
                      (get_close_matches word names n cutoff ++ rest)
    /\ length (get_close_matches word names n cutoff)
       = (n `min` length candidates)%nat.
Proof.
  intros candidates. unfold get_close_matches, nlargest.
  rewrite (filter_ext _ _ (fun x => good_enough_ratio word x cutoff) names
           : List.filter (fun x => good_enough word x cutoff) names = candidates).
  set (result := map (fun x => (ratio x word, x)) candidates).
  set (ranked := merge_sort (leb_rel scored_geb) result).
  assert (Hperm : ranked ≡ₚ result) by apply merge_sort_Permutation.
  assert (Hsnd : map snd result = candidates).
  { subst result. rewrite map_map. cbn. apply map_id. }
  exists (map snd (drop n ranked)).
  rewrite <- map_app, take_drop. split; [|split].
  - rewrite <- Hsnd. change (snd <$> ranked ≡ₚ snd <$> result). by rewrite Hperm.
  - apply ranked_scores; [|apply StronglySorted_merge_sort; apply _].
    rewrite Hperm. subst result. apply Forall_forall.
    intros p (x & <- & _)%list_elem_of_In%in_map_iff. reflexivity.
  - rewrite length_map, length_take. f_equal.
    rewrite <- Hsnd, length_map. by rewrite Hperm.
Qed.

End RankingFacts.

(** ** Substrings *)

Lemma startswith_spec (x pre : str) :
  startswith x pre = true <-> exists post, x = pre ++ post.
Proof.
  revert x. induction pre as [|p pre IH]; intros [|c x]; cbn [startswith].
  - split; [intros _; by exists [] | reflexivity].
  - split; [intros _; by exists (c :: x) | reflexivity].
  - split; [discriminate | intros [post [=]]].
  - rewrite andb_true_iff, N.eqb_eq, IH. split.
    + intros [-> [post ->]]. by exists post.
    + intros [post [= -> ->]]. eauto.
Qed.

(** [needle in haystack] holds exactly when [needle] is a contiguous
    part of [haystack]. *)
Lemma contains_spec (haystack needle : str) :
  contains haystack needle = true <->
  exists before after, haystack = before ++ needle ++ after.
Proof.
  induction haystack as [|c haystack IH]; cbn [contains];
    rewrite orb_true_iff, startswith_spec.
  - split.
    + intros [[post E]|[=]]. by exists [], post.
    + intros (before & after & E). left.
      destruct before; [by exists after | discriminate E].
  - rewrite IH. split.
    + intros [[post E]|(before & after & ->)]; [by exists [], post|].
      by exists (c :: before), after.
    + intros ([|d before] & after & E); [left; by exists after|].
      right. injection E as -> ->. eauto.
Qed.

(** ** The search command *)

(** C3, refuted as stated: eleven stored names are as similar to the
    query [abcd] as one another (ratio 8/9) and none contains it.
    Ranking ties by the position in the list keeps the first ten, so
    [abecd] is in the result set that the claim describes and [abocd]
    is not; the command lists [abocd] and not [abecd], because
    [get_close_matches] ranks the pairs of score and name, and among
    equal scores the greater name comes first. *)
Lemma search_ties_not_by_position :
  let query := lit "abcd" in
  let names := [lit "abecd"; lit "abfcd"; lit "abgcd"; lit "abhcd";
                lit "abicd"; lit "abjcd"; lit "abkcd"; lit "ablcd";
                lit "abmcd"; lit "abncd"; lit "abocd"] in
  convert ascii_isalnum query = Ok query
  /\ (lit "abecd" ∈ Spec.search_result_set query names)
  /\ (bullet (lit "abecd") ∉ search_lines query names)
  /\ (lit "abocd" ∉ Spec.search_result_set query names)
  /\ (bullet (lit "abocd") ∈ search_lines query names).
Proof.
  cbv zeta. split; [vm_compute; reflexivity|].
  repeat split; apply (bool_decide_unpack _); vm_compute; exact I.
Qed.

Section SearchFacts.

Variable isalnum : codepoint -> bool.

(** C3, as amended: the lines of a search are the bulleted names,
    without repetition and in ascending order, of the stored names
    that contain the query as a contiguous part (no cutoff) together
    with at most ten fuzzy matches.  The fuzzy matches are the first
    ten, or all if there are fewer, of the stored names whose
    similarity ratio to the query is at least 7/10, ranked by
    descending ratio; names with equal ratios are ranked by
    descending name, not by their position in the list. *)
Theorem search_command_lines (ctx : Context) (raw_query query : str)
    (names : list str) :
  convert isalnum raw_query = Ok query ->
  let lines := search_lines query names in
  let candidates :=
    List.filter (fun name => Qle_bool (7 # 10) (Difflib.ratio name query))
                names in
  exists fuzzy rest : list str,
    fuzzy ++ rest ≡ₚ candidates
    /\ StronglySorted (ranks_before query) (fuzzy ++ rest)
    /\ length fuzzy = (10 `min` length candidates)%nat
    /\ (forall line : str,
          line ∈ lines <->
          exists name, line = bullet name
            /\ ((name ∈ names
                 /\ exists before after, name = before ++ query ++ after)
                \/ name ∈ fuzzy))
    /\ StronglySorted (fun x y => str_ltb x y = true) lines
    /\ search_command isalnum ctx raw_query (Ok names)
       = ([EvGet names_url None;
           match lines with
           | [] => EvSendEmbed (lit "Query results") (lit "Nothing found.")
           | _ :: _ => EvPaginate lines (lit "Query results") 400%Z false
           end], Ok tt).
Proof.
  intros E lines candidates.
  destruct (RankingFacts.get_close_matches_ranked query names 10 (7 # 10))
    as (rest & Hperm & Hsorted & Hlen).
  exists (Difflib.get_close_matches query names 10 (7 # 10)), rest.
  split; [exact Hperm|]. split; [exact Hsorted|]. split; [exact Hlen|].
  split; [|split].
  - intros line. subst lines. rewrite search_lines_elem.
    split; intros (name & -> & H); exists name; (split; [reflexivity|]);
      (destruct H as [[Hin Hc]|Hf]; [left; split; [exact Hin|] | by right]).
    + by apply contains_spec.
    + by apply contains_spec.
  - apply search_lines_strict.
  - subst lines. unfold search_command. rewrite E.
    cbv [lift_converter api_get bind ret emit].
    destruct (search_lines query names); reflexivity.
Qed.

End SearchFacts.

Lemma search_command_lines_witness :
  let ctx := {| author_name := lit "mod"; author_discriminator := lit "0001" |} in
  search_command ascii_isalnum ctx (lit "apple")
                 (Ok [lit "apple"; lit "appletree"; lit "banana"])
  = ([EvGet names_url None;
      EvPaginate [bullet (lit "apple"); bullet (lit "appletree")]
                 (lit "Query results") 400%Z false], Ok tt).
Proof.
  intros ctx.
  destruct (search_command_lines ascii_isalnum ctx (lit "apple") (lit "apple")
              [lit "apple"; lit "appletree"; lit "banana"])
    as (fuzzy & rest & _ & _ & _ & _ & _ & E).
  - vm_compute. reflexivity.
  - rewrite E. vm_compute. reflexivity.
Defined.

(** * Further properties of the code *)

Lemma forallb_false_elem {A} (f : A -> bool) (l : list A) :
  forallb f l = false -> exists x, x ∈ l /\ f x = false.
Proof.
  induction l as [|x l IH]; cbn [forallb]; [discriminate|].
  destruct (f x) eqn:E; cbn [andb].
  - intros (y & Hy & Ey)%IH. exists y. split; [by right | exact Ey].
  - intros _. exists x. split; [left | exact E].
Qed.




Lemma translate_table_idempotent (s : str) :
  translate table (translate table s) = translate table s.
Proof.
  rewrite !translate_table_substitute, map_map. apply map_ext. intros c.
  apply substitute_fixed, substitute_not_substituted.
Qed.

Lemma join_length (sep : str) (parts : list str) :
  length (join sep parts)
  = (sum_list_with length parts + length sep * (length parts - 1))%nat.
Proof.
  induction parts as [|p [|p' parts] IH]; [cbn; lia|cbn; lia|].
  change (length (p ++ sep ++ join sep (p' :: parts))
          = (sum_list_with length (p :: p' :: parts)
             + length sep * (length (p :: p' :: parts) - 1))%nat).
  rewrite !length_app, IH. cbn [sum_list_with length]. lia.
Qed.


(** ** The converter *)

Section ConverterMore.

Variable isalnum : codepoint -> bool.

(** The converter raises the character error exactly when the length is
    in range and some character is neither alphanumeric nor one of the
    allowed characters: the length is tested first. *)
Theorem convert_invalid_characters (argument : str) :
  convert isalnum argument = Raise InvalidCharacters <->
  2 <= len argument <= 96
  /\ exists c, c ∈ argument /\ isalnum c = false /\ c ∉ allowed_characters.
Proof.
  unfold convert.
  destruct (N.leb_spec 2 (len argument)), (N.leb_spec (len argument) 96);
    cbv [negb andb]; try (split; [discriminate | lia]).
  destruct (forallb (char_ok isalnum) argument) eqn:E; cbv [negb].
  - split; [discriminate|]. intros (_ & c & Hc & Ha & Hn). exfalso.
    rewrite forallb_forall in E. apply list_elem_of_In, E in Hc.
    unfold char_ok in Hc. rewrite Ha in Hc. cbn [orb] in Hc.
    by apply Hn, contains_char_elem_of.
  - split; [intros _ | reflexivity]. split; [lia|].
    apply forallb_false_elem in E as (c & Hc & E). exists c.
    unfold char_ok in E. apply orb_false_iff in E as [Ha Hn].
    split; [exact Hc|]. split; [exact Ha|].
    intros Hin%contains_char_elem_of. congruence.
Qed.

(** Converting a converted name again changes nothing: a stored name
    that passes the converter comes out as it went in, and the only way
    it can fail is the character test. *)
Theorem convert_converted (argument out : str) :
  convert isalnum argument = Ok out ->
  convert isalnum out = Ok out
  \/ convert isalnum out = Raise InvalidCharacters.
Proof.
  intros (Hlen & _ & ->)%convert_Ok. unfold convert.
  assert (E : len (translate table argument) = len argument)
    by (unfold len, translate; by rewrite length_map).
  rewrite E.
  destruct (N.leb_spec 2 (len argument)), (N.leb_spec (len argument) 96);
    try lia. cbv [negb andb].
  destruct (forallb (char_ok isalnum) (translate table argument));
    cbv [negb]; [left | right; reflexivity].
  by rewrite translate_table_idempotent.
Qed.


End ConverterMore.

Lemma convert_converted_witness :
  convert ascii_isalnum (lit "ot-name's") = Ok (translate table (lit "ot-name's"))
  /\ (convert ascii_isalnum (translate table (lit "ot-name's"))
      = Ok (translate table (lit "ot-name's"))
      \/ convert ascii_isalnum (translate table (lit "ot-name's"))
         = Raise InvalidCharacters).
Proof.
  split; [vm_compute; reflexivity|].
  apply (convert_converted ascii_isalnum (lit "ot-name's")).
  vm_compute. reflexivity.
Defined.


(** ** The add and delete commands *)

Section CommandsMore.

Variable isalnum : codepoint -> bool.

Lemma convert_each_app_Raise (before after : list str) (w : str)
    (e : BadArgument) :
  Forall (fun w => exists name, convert isalnum w = Ok name) before ->
  convert isalnum w = Raise e ->
  convert_each isalnum (before ++ w :: after) = Raise e.
Proof.
  intros F E. induction F as [|v before [name Hv] F IH]; cbn [app convert_each].
  - rewrite E. reflexivity.
  - rewrite Hv, IH. reflexivity.
Qed.

(** A word that the converter rejects stops the add and the delete
    command before they do anything; when several words are invalid,
    the error is that of the first. *)
Theorem commands_reject_first_invalid_word (ctx : Context)
    (before after : list str) (w : str) (e : BadArgument)
    (answer : result Z unit) :
  Forall (fun w => exists name, convert isalnum w = Ok name) before ->
  convert isalnum w = Raise e ->
  add_command isalnum ctx (before ++ w :: after) answer
  = ([], Raise (ExBadArgument e))
  /\ delete_command isalnum ctx (before ++ w :: after) answer
     = ([], Raise (ExBadArgument e)).
Proof.
  intros F E. pose proof (convert_each_app_Raise before after w e F E) as H.
  unfold add_command, delete_command. rewrite H. split; reflexivity.
Qed.

(** The name that the add command posts has the characters of all the
    words and one hyphen between neighbours; only the single words are
    held to 96 characters, the posted name is not. *)
Theorem add_command_posted_length (ctx : Context) (words : list str)
    (answer : result Z unit) :
  Forall (fun w => exists name, convert isalnum w = Ok name) words ->
  exists name log_and_reply,
    (add_command isalnum ctx words answer).1
    = (EvPost names_url name) :: log_and_reply
    /\ length name
       = (sum_list_with length words + (length words - 1))%nat.
Proof.
  intros F.
  assert (E : convert_each isalnum words = Ok (map (translate table) words))
    by (apply convert_each_Ok; auto).
  rewrite (add_command_converted isalnum ctx words _ answer E).
  exists (join (lit "-") (map (translate table) words)).
  assert (L : length (join (lit "-") (map (translate table) words))
              = (sum_list_with length words + (length words - 1))%nat).
  { rewrite join_length, length_map. cbn [lit length]. f_equal; [|lia].
    clear. induction words as [|w words IH]; [reflexivity|].
    cbn [map sum_list_with]. unfold translate at 1. rewrite length_map, IH.
    reflexivity. }
  destruct answer as [[]|status]; cbn [fst]; eexists; (split; [reflexivity|exact L]).
Qed.

(** The delete command addresses the very name that the add command
    posts for the same words: the converted words joined by hyphens,
    appended to the path of the store. *)
Theorem delete_command_targets_added_name (ctx : Context) (words : list str)
    (add_answer delete_answer : result Z unit) :
  Forall (fun w => exists name, convert isalnum w = Ok name) words ->
  exists name,
    head (add_command isalnum ctx words add_answer).1
    = Some (EvPost names_url name)
    /\ head (delete_command isalnum ctx words delete_answer).1
       = Some (EvDelete (names_url ++ lit "/" ++ name)).
Proof.
  intros F.
  assert (E : convert_each isalnum words = Ok (map (translate table) words))
    by (apply convert_each_Ok; auto).
  exists (join (lit "-") (map (translate table) words)).
  unfold add_command, delete_command. rewrite E.
  destruct add_answer as [[]|?], delete_answer as [[]|?]; split; reflexivity.
Qed.

(** When the store answers with an error status, a command ends with
    that error right after its one request: it logs nothing and sends
    nothing to the channel. *)
Theorem commands_propagate_store_error (ctx : Context) (words : list str)
    (raw_query : str) (status : Z) :
  Forall (fun w => exists name, convert isalnum w = Ok name) words ->
  (exists query, convert isalnum raw_query = Ok query) ->
  let name := join (lit "-") (map (translate table) words) in
  add_command isalnum ctx words (Raise status)
  = ([EvPost names_url name], Raise (ExResponseCodeError status))
  /\ delete_command isalnum ctx words (Raise status)
     = ([EvDelete (names_url ++ lit "/" ++ name)],
        Raise (ExResponseCodeError status))
  /\ list_command ctx (Raise status)
     = ([EvGet names_url None], Raise (ExResponseCodeError status))
  /\ search_command isalnum ctx raw_query (Raise status)
     = ([EvGet names_url None], Raise (ExResponseCodeError status)).
Proof.
  intros F [query Eq] name.
  assert (E : convert_each isalnum words = Ok (map (translate table) words))
    by (apply convert_each_Ok; auto).
  unfold add_command, delete_command, search_command. rewrite E, Eq.
  repeat split; reflexivity.
Qed.

End CommandsMore.

Lemma commands_reject_first_invalid_word_witness :
  let ctx := {| author_name := lit "mod"; author_discriminator := lit "0001" |} in
  add_command ascii_isalnum ctx ([lit "ok"] ++ lit "x" :: [lit "a b"]) (Ok tt)
  = ([], Raise (ExBadArgument InvalidLength))
  /\ delete_command ascii_isalnum ctx ([lit "ok"] ++ lit "x" :: [lit "a b"]) (Ok tt)
     = ([], Raise (ExBadArgument InvalidLength)).
Proof.
  intros ctx. apply (commands_reject_first_invalid_word ascii_isalnum).
  - repeat constructor. eexists. vm_compute. reflexivity.
  - vm_compute. reflexivity.
Defined.

Lemma add_command_posted_length_witness :
  let ctx := {| author_name := lit "mod"; author_discriminator := lit "0001" |} in
  let words := [replicate 96 97; replicate 96 98] in
  exists name log_and_reply,
    (add_command ascii_isalnum ctx words (Ok tt)).1
    = (EvPost names_url name) :: log_and_reply
    /\ length name = 193%nat.
Proof.
  intros ctx words.
  destruct (add_command_posted_length ascii_isalnum ctx words (Ok tt))
    as (name & rest & E & L).
  - repeat constructor; eexists; vm_compute; reflexivity.
  - exists name, rest. split; [exact E|]. rewrite L. reflexivity.
Defined.

Lemma delete_command_targets_added_name_witness :
  let ctx := {| author_name := lit "mod"; author_discriminator := lit "0001" |} in
  exists name,
    head (add_command ascii_isalnum ctx [lit "FOO"; lit "bar"] (Ok tt)).1
    = Some (EvPost names_url name)
    /\ head (delete_command ascii_isalnum ctx [lit "FOO"; lit "bar"] (Ok tt)).1
       = Some (EvDelete (names_url ++ lit "/" ++ name)).
Proof.
  intros ctx. apply (delete_command_targets_added_name ascii_isalnum).
  repeat constructor; eexists; vm_compute; reflexivity.
Defined.

Lemma commands_propagate_store_error_witness :
  let ctx := {| author_name := lit "mod"; author_discriminator := lit "0001" |} in
  add_command ascii_isalnum ctx [lit "name"] (Raise 500%Z)
  = ([EvPost names_url (lit "name")], Raise (ExResponseCodeError 500))
  /\ search_command ascii_isalnum ctx (lit "name") (Raise 500%Z)
     = ([EvGet names_url None], Raise (ExResponseCodeError 500)).
Proof.
  intros ctx.
  destruct (commands_propagate_store_error ascii_isalnum ctx [lit "name"]
              (lit "name") 500%Z) as (Ha & _ & _ & Hs).
  - repeat constructor; eexists; vm_compute; reflexivity.
  - eexists; vm_compute; reflexivity.
  - split; [|exact Hs]. rewrite Ha. vm_compute. reflexivity.
Defined.

(** ** The list and search commands *)

#[local] Instance str_leb_antisym : AntiSymm (=) (leb_rel str_leb).
Proof.
  intros x y. unfold leb_rel, str_leb.
  destruct (str_ltb y x) eqn:E1; [contradiction|].
  destruct (str_ltb x y) eqn:E2; [contradiction|]. intros _ _.
  destruct (str_ltb_trichotomy x y) as [H|[H|H]]; congruence.
Qed.

(** Sorting forgets the order of its input. *)
Lemma sorted_of_Permutation (l1 l2 : list str) :
  l1 ≡ₚ l2 -> sorted l1 = sorted l2.
Proof.
  intros H. apply (StronglySorted_unique (leb_rel str_leb));
    [apply sorted_StronglySorted..|].
  by rewrite !sorted_Permutation.
Qed.

Lemma filter_Permutation {A} (f : A -> bool) (l1 l2 : list A) :
  l1 ≡ₚ l2 -> List.filter f l1 ≡ₚ List.filter f l2.
Proof.
  induction 1 as [|x l1 l2 H IH|x y l|l1 l2 l3 H1 IH1 H2 IH2];
    cbn [List.filter].
  - reflexivity.
  - destruct (f x); [by constructor | exact IH].
  - destruct (f x), (f y); try reflexivity. apply perm_swap.
  - by etransitivity.
Qed.

(** The list command shows every stored name once per occurrence,
    bulleted and in ascending order, under a title with their number;
    with no names it sends the plain embed instead of a paginator. *)
Theorem list_command_lines (ctx : Context) (names : list str) :
  exists lines title,
    lines ≡ₚ map bullet names
    /\ StronglySorted (leb_rel str_leb) lines
    /\ title = lit "Known off-topic names (`" ++ str_of_nat (length names)
               ++ lit "` total)"
    /\ list_command ctx (Ok names)
       = ([EvGet names_url None;
           match names with
           | [] => EvSendEmbed title
                     (lit "Hmmm, seems like there's nothing here yet.")
           | _ :: _ => EvPaginate lines title 400%Z false
           end], Ok tt).
Proof.
  exists (sorted (map bullet names)). eexists.
  split; [apply sorted_Permutation|]. split; [apply sorted_StronglySorted|].
  split; [reflexivity|]. destruct names; reflexivity.
Qed.

(** What the list command shows does not depend on the order in which
    the store returns the names. *)
Theorem list_command_order_independent (ctx : Context)
    (names names' : list str) :
  names ≡ₚ names' ->
  list_command ctx (Ok names) = list_command ctx (Ok names').
Proof.
  intros H.
  assert (Es : sorted (map bullet names) = sorted (map bullet names'))
    by (apply sorted_of_Permutation; change (bullet <$> names ≡ₚ bullet <$> names');
        by rewrite H).
  assert (El : length names = length names') by (by rewrite H).
  unfold list_command. cbv [api_get bind ret emit]. rewrite Es, El.
  destruct names as [|n names], names' as [|n' names']; try reflexivity;
    discriminate El.
Qed.

Lemma list_command_order_independent_witness :
  let ctx := {| author_name := lit "mod"; author_discriminator := lit "0001" |} in
  list_command ctx (Ok [lit "b"; lit "a"; lit "c"])
  = list_command ctx (Ok [lit "c"; lit "b"; lit "a"]).
Proof.
  intros ctx. apply list_command_order_independent.
  apply (bool_decide_unpack _). vm_compute. exact I.
Defined.

Lemma strictly_sorted_NoDup (l : list str) :
  StronglySorted (fun x y => str_ltb x y = true) l -> NoDup l.
Proof.
  induction 1 as [|x l S IH Hx]; [constructor|].
  constructor; [|exact IH].
  intros Hxl. rewrite Forall_forall in Hx. specialize (Hx x Hxl).
  by rewrite str_ltb_irrefl in Hx.
Qed.

(** A search lists only stored names, each at most once, so never more
    lines than there are names. *)
Theorem search_lines_within_store (query : str) (names : list str) :
  (forall line, line ∈ search_lines query names ->
     exists name, name ∈ names /\ line = bullet name)
  /\ NoDup (search_lines query names)
  /\ (length (search_lines query names) <= length names)%nat.
Proof.
  assert (Hin : forall line, line ∈ search_lines query names ->
                  exists name, name ∈ names /\ line = bullet name).
  { intros line (name & -> & H)%search_lines_elem. exists name.
    split; [|reflexivity]. destruct H as [[H _]|H]; [exact H|].
    destruct (RankingFacts.get_close_matches_ranked query names 10 (7 # 10))
      as (rest & Hperm & _ & _).
    assert (Hc : name ∈ Difflib.get_close_matches query names 10 (7 # 10) ++ rest)
      by (apply elem_of_app; by left).
    rewrite Hperm in Hc. apply list_elem_of_In, filter_In in Hc as [Hc _].
    by apply list_elem_of_In. }
  assert (Hnd : NoDup (search_lines query names))
    by apply strictly_sorted_NoDup, search_lines_strict.
  split; [exact Hin|]. split; [exact Hnd|].
  rewrite <- (length_map bullet names). apply submseteq_length, NoDup_submseteq;
    [exact Hnd|].
  intros line (name & Hn & ->)%Hin. apply list_elem_of_In, in_map.
  by apply list_elem_of_In.
Qed.

#[local] Existing Instance RankingFacts.scored_geb_total.
#[local] Existing Instance RankingFacts.scored_geb_trans.

Lemma get_close_matches_of_Permutation (word : str) (names names' : list str)
    (n : nat) (cutoff : Q) :
  names ≡ₚ names' ->
  Difflib.get_close_matches word names n cutoff
  = Difflib.get_close_matches word names' n cutoff.
Proof.
  intros H. unfold Difflib.get_close_matches, Difflib.nlargest.
  set (score := fun x : str => (Difflib.ratio x word, x)).
  set (good := fun x : str => Difflib.good_enough word x cutoff).
  assert (Hperm : map score (List.filter good names)
                  ≡ₚ map score (List.filter good names')).
  { change (score <$> List.filter good names ≡ₚ score <$> List.filter good names').
    by rewrite (filter_Permutation good names names' H). }
  do 2 f_equal.
  apply (StronglySorted_unique_strong (leb_rel Difflib.scored_geb)).
  - intros x1 x2 H1 H2 R1 R2.
    rewrite merge_sort_Permutation in H1, H2.
    apply list_elem_of_In, in_map_iff in H1 as (y1 & <- & _).
    apply list_elem_of_In, in_map_iff in H2 as (y2 & <- & _).
    apply Is_true_true, RankingFacts.scored_geb_spec in R1.
    apply Is_true_true, RankingFacts.scored_geb_spec in R2.
    subst score. cbn [fst snd] in *.
    assert (E : y1 = y2).
    { destruct R1 as [L1|[E1 B1]], R2 as [L2|[E2 B2]].
      - exfalso. eapply Qlt_irrefl, Qlt_trans; eauto.
      - exfalso. rewrite E2 in L1. by apply Qlt_irrefl in L1.
      - exfalso. rewrite E1 in L2. by apply Qlt_irrefl in L2.
      - apply (anti_symm (leb_rel str_leb)); by apply Is_true_true. }
    by rewrite E.
  - apply StronglySorted_merge_sort; apply _.
  - apply StronglySorted_merge_sort; apply _.
  - by rewrite !merge_sort_Permutation.
Qed.

(** What a search shows does not depend on the order in which the store
    returns the names. *)
Theorem search_lines_order_independent (query : str)
    (names names' : list str) :
  names ≡ₚ names' ->
  search_lines query names = search_lines query names'.
Proof.
  intros H. unfold search_lines.
  rewrite (get_close_matches_of_Permutation query names names' 10 (7 # 10) H).
  do 4 f_equal. apply list_to_set_perm_L, filter_Permutation, H.
Qed.

Lemma search_lines_order_independent_witness :
  search_lines (lit "apple") [lit "appletree"; lit "banana"; lit "aple"]
  = search_lines (lit "apple") [lit "aple"; lit "appletree"; lit "banana"].
Proof.
  apply search_lines_order_independent.
  apply (bool_decide_unpack _). vm_compute. exact I.
Defined.

(** ** More on the updater loop *)

Section UpdaterMore.

Variables off_topic_0 off_topic_1 off_topic_2 : Z.


(** A turn that gets three names and finds the three channels renames
    them in the order of the answer, each with the prefix of its slot,
    then logs the names. *)
Theorem update_step_renames (c : cycle) (name_0 name_1 name_2 : str)
    (channel_0 channel_1 channel_2 : Z) :
  names_answer c = Ok [name_0; name_1; name_2] ->
  get_channel c off_topic_0 = Some channel_0 ->
  get_channel c off_topic_1 = Some channel_1 ->
  get_channel c off_topic_2 = Some channel_2 ->
  update_step off_topic_0 off_topic_1 off_topic_2 c
  = ([EvSleep (seconds_to_sleep (utcnow_1 c) (utcnow_2 c));
      EvGet names_url (Some 3%Z);
      EvChannelEdit channel_0 (lit "ot0-" ++ name_0);
      EvChannelEdit channel_1 (lit "ot1-" ++ name_1);
      EvChannelEdit channel_2 (lit "ot2-" ++ name_2);
      EvLogDebug name_0 name_1 name_2], Ok tt).
Proof.
  intros E H0 H1 H2. unfold update_step. rewrite E, H0, H1, H2. reflexivity.
Qed.

(** A channel that the bot does not find is not guarded against: when
    the second channel is missing, the first has been renamed already,
    the turn ends with [AttributeError] and the loop with it. *)
Theorem update_step_missing_channel (c : cycle) (rest : list cycle)
    (name_0 name_1 name_2 : str) (channel_0 : Z) :
  names_answer c = Ok [name_0; name_1; name_2] ->
  get_channel c off_topic_0 = Some channel_0 ->
  get_channel c off_topic_1 = None ->
  update_names off_topic_0 off_topic_1 off_topic_2 (c :: rest)
  = ([EvSleep (seconds_to_sleep (utcnow_1 c) (utcnow_2 c));
      EvGet names_url (Some 3%Z);
      EvChannelEdit channel_0 (lit "ot0-" ++ name_0)],
     Raise ExAttributeError).
Proof.
  intros E H0 H1. rewrite update_names_cons. unfold update_step.
  rewrite E, H0, H1. reflexivity.
Qed.

(** As long as every fetch fails with a status code the loop keeps
    running: one request per turn, no retry, no channel edit. *)
Theorem update_names_all_failures (world : list cycle) :
  Forall (fun c => exists status, names_answer c = Raise status) world ->
  let run := update_names off_topic_0 off_topic_1 off_topic_2 world in
  run.2 = Ok tt
  /\ List.filter is_edit run.1 = []
  /\ length (List.filter is_get run.1) = length world.
Proof.
  cbv zeta.
  induction 1 as [|c world [status E] F (IH1 & IH2 & IH3)];
    [repeat split|].
  rewrite update_names_cons,
    (update_step_failure off_topic_0 off_topic_1 off_topic_2 c status E).
  cbn [bind]. destruct (update_names _ _ _ world) as [tr r].
  cbn [fst snd] in *. split; [exact IH1|].
  cbn [app List.filter is_edit is_get length]. split; [exact IH2 | by rewrite IH3].
Qed.

End UpdaterMore.

Lemma update_step_renames_witness :
  let now := {| DateTime.ordinal := 737000; DateTime.hour := 23;
                DateTime.minute := 59; DateTime.second := 59;
                DateTime.microsecond := 0 |} in
  let c := {| utcnow_1 := now; utcnow_2 := now;
              names_answer := Ok [lit "a"; lit "b"; lit "c"];
              get_channel := fun id => Some (id + 100)%Z |} in
  update_step 10 11 12 c
  = ([EvSleep 2; EvGet names_url (Some 3%Z);
      EvChannelEdit 110 (lit "ot0-a"); EvChannelEdit 111 (lit "ot1-b");
      EvChannelEdit 112 (lit "ot2-c");
      EvLogDebug (lit "a") (lit "b") (lit "c")], Ok tt).
Proof.
  intros now c.
  exact (update_step_renames 10 11 12 c (lit "a") (lit "b") (lit "c")
           110 111 112 eq_refl eq_refl eq_refl eq_refl).
Defined.

Lemma update_step_missing_channel_witness :
  let now := {| DateTime.ordinal := 737000; DateTime.hour := 23;
                DateTime.minute := 59; DateTime.second := 59;
                DateTime.microsecond := 0 |} in
  let c := {| utcnow_1 := now; utcnow_2 := now;
              names_answer := Ok [lit "a"; lit "b"; lit "c"];
              get_channel := fun id => if (id =? 10)%Z then Some 110%Z else None |} in
  update_names 10 11 12 [c; c]
  = ([EvSleep 2; EvGet names_url (Some 3%Z); EvChannelEdit 110 (lit "ot0-a")],
     Raise ExAttributeError).
Proof.
  intros now c.
  exact (update_step_missing_channel 10 11 12 c [c] (lit "a") (lit "b") (lit "c")
           110 eq_refl eq_refl eq_refl).
Defined.

Lemma update_names_all_failures_witness :
  let now := {| DateTime.ordinal := 737000; DateTime.hour := 23;
                DateTime.minute := 59; DateTime.second := 59;
                DateTime.microsecond := 0 |} in
  let c := {| utcnow_1 := now; utcnow_2 := now;
              names_answer := Raise 404%Z;
              get_channel := fun id => Some id |} in
  (update_names 10 11 12 [c; c; c]).2 = Ok tt
  /\ List.filter is_edit (update_names 10 11 12 [c; c; c]).1 = []
  /\ length (List.filter is_get (update_names 10 11 12 [c; c; c]).1) = 3%nat.
Proof.
  intros now c. apply (update_names_all_failures 10 11 12 [c; c; c]).
  repeat constructor; exists 404%Z; reflexivity.
Defined.

(** ** More on the cog *)

Lemma calls_app (s : cog) (cs cs' : list cog_call) :
  calls s (cs ++ cs') = calls (calls s cs) cs'.
Proof. unfold calls. apply foldl_app. Qed.

Lemma started_after_ready (s : cog) (cs : list cog_call) :
  cog_ok s -> (is_Some (updater_task s) \/ CallOnReady ∈ cs) ->
  is_Some (updater_task (calls s cs)).
Proof.
  revert s. induction cs as [|c cs IH]; intros s Hs [H|H].
  - exact H.
  - by apply elem_of_nil in H.
  - cbn. apply IH; [by apply cog_ok_call|]. left.
    destruct Hs, c, H as [t [=]]; cbn; eauto.
  - cbn. apply IH; [by apply cog_ok_call|].
    apply elem_of_cons in H as [<-|H]; [left | by right].
    destruct Hs; cbn; eauto.
Qed.

Lemma stopped_stays_stopped (cs : list cog_call) :
  calls {| tasks := [Cancelled]; updater_task := Some 0%nat |} cs
  = {| tasks := [Cancelled]; updater_task := Some 0%nat |}.
Proof. induction cs as [|[] cs IH]; [reflexivity|exact IH..]. Qed.

(** Unloading does not clear [updater_task]: once the updater has been
    started and the cog unloaded, the task stays cancelled and no later
    ready event starts another. *)
Theorem unloaded_cog_never_restarts (cs cs' : list cog_call) :
  CallOnReady ∈ cs ->
  calls init (cs ++ CallCogUnload :: cs')
  = {| tasks := [Cancelled]; updater_task := Some 0%nat |}.
Proof.
  intros H. rewrite calls_app. cbn [calls foldl].
  pose proof (cog_ok_calls init cs cog_ok_fresh) as Hok.
  pose proof (started_after_ready init cs cog_ok_fresh (or_intror H)) as [t Ht].
  change (foldl call init cs) with (calls init cs).
  destruct Hok as [|st]; [discriminate Ht|].
  cbn [call cog_unload updater_task tasks].
  change (<[0%nat:=Cancelled]> [st]) with [Cancelled].
  apply stopped_stays_stopped.
Qed.

Lemma unloaded_cog_never_restarts_witness :
  calls init ([CallOnReady] ++ CallCogUnload :: [CallOnReady; CallOnReady])
  = {| tasks := [Cancelled]; updater_task := Some 0%nat |}.
Proof.
  apply unloaded_cog_never_restarts. constructor.
Defined.
